(** * The IPNI advertisement publisher of go-libstoracha

    A shallow embedding of [ipnipublisher/publisher/publisher.go]:
    [Publish], [publishAdvForIndex], [publish] and [publishLocal], run over
    an explicit store, together with the properties of the advertisement
    chain, of the commit order and of the add / no-op / remove decision. *)

From Stdlib.Strings Require Import Byte.
From stdpp Require Import base option list gmap strings.

Local Open Scope string_scope.
Local Open Scope list_scope.

(** ** Errors

    Go's [error] values.  The three sentinels are package level variables;
    [fmt.Errorf] with [%s] flattens the cause into the message (the chain is
    cut), with [%w] it wraps the cause (the chain is kept). *)

Inductive Error : Type :=
| ErrNotFound
| ErrAlreadyAdvertised
| ErrContextIDNotFound
| ErrFailure (msg : string)
| Errorf_s (msg : string) (cause : Error)
| Errorf_w (msg : string) (cause : Error).

#[global] Instance Error_eq_dec : EqDecision Error.
Proof. solve_decision. Defined.

(** [errors.Is]: walks the [%w] chain. *)
Fixpoint errors_Is (err target : Error) : bool :=
  if bool_decide (err = target) then true
  else match err with
       | Errorf_w _ cause => errors_Is cause target
       | _ => false
       end.

(** Go's [(T, error)] results where exactly one of the two is set. *)
Inductive Result (A : Type) : Type :=
| Ok (a : A)
| Err (e : Error).
Arguments Ok {A} a.
Arguments Err {A} e.

(** ** Data of the collaborating libraries *)

Definition PeerID : Type := string.
Definition Multiaddr : Type := string.
Definition ContextID : Type := string.
Definition Multihash : Type := string.
Definition PrivKey : Type := string.

Definition PeerID_String (p : PeerID) : string := p.
Definition Multiaddr_String (a : Multiaddr) : string := a.

Record AddrInfo : Type := mkAddrInfo {
  ID : PeerID;
  Addrs : list Multiaddr
}.

(** [ipld.Link] is an interface whose only implementation here is
    [cidlink.Link]; a nil interface value is [None] of [option Link]. *)
Record Link : Type := CidLink { Cid : string }.

#[global] Instance Link_eq_dec : EqDecision Link.
Proof. solve_decision. Defined.

#[global] Instance Link_countable : Countable Link.
Proof. apply (inj_countable' Cid CidLink). by intros []. Defined.

(** [schema.NoEntries]: the well-known link of an advertisement without
    entries. *)
Definition NoEntries : Link := CidLink "bafkreehdwdcefgh4dqkjv67uzcmw7oje".

#[global] Instance byte_eq_dec : EqDecision byte := Byte.byte_eq_dec.

(** [metadata.Metadata]: the ordered list of transport protocols, each with
    its multicodec and its binary form. *)
Record Protocol : Type := mkProtocol {
  protoID : N;
  protoBytes : list byte
}.

Record Metadata : Type := mkMetadata {
  protocols : list Protocol
}.

#[global] Instance Protocol_eq_dec : EqDecision Protocol.
Proof. solve_decision. Defined.

#[global] Instance Metadata_eq_dec : EqDecision Metadata.
Proof. solve_decision. Defined.

(** Go's zero value [metadata.Metadata{}], returned next to an error. *)
Definition Metadata_zero : Metadata := mkMetadata [].

(** [metadata.Default.New()] without protocols: the valid empty metadata. *)
Definition Default_New : Metadata := mkMetadata [].

(** [Metadata.Equal]: same number of protocols and, position by position,
    the same protocol ID and the same bytes. *)
Fixpoint protocols_equal (ps qs : list Protocol) : bool :=
  match ps, qs with
  | [], [] => true
  | this :: ps', that :: qs' =>
      if negb (bool_decide (protoID this = protoID that)) then false
      else if negb (bool_decide (protoBytes this = protoBytes that)) then false
      else protocols_equal ps' qs'
  | _, _ => false
  end.

Definition Equal (m other : Metadata) : bool :=
  protocols_equal (protocols m) (protocols other).

(** [schema.Advertisement]. *)
Record Advertisement : Type := mkAdvertisement {
  PreviousID : option Link;
  Provider : string;
  Addresses : list string;
  Signature : list byte;
  Entries : option Link;
  ContextID_ : ContextID;
  Metadata_ : list byte;
  IsRm : bool
}.

Definition with_PreviousID (adv : Advertisement) (l : option Link) : Advertisement :=
  mkAdvertisement l (Provider adv) (Addresses adv) (Signature adv)
    (Entries adv) (ContextID_ adv) (Metadata_ adv) (IsRm adv).

Definition with_Signature (adv : Advertisement) (sig : list byte) : Advertisement :=
  mkAdvertisement (PreviousID adv) (Provider adv) (Addresses adv) sig
    (Entries adv) (ContextID_ adv) (Metadata_ adv) (IsRm adv).

(** [head.SignedHead]. *)
Record SignedHead : Type := mkSignedHead {
  Head_ : Link;
  Topic : string;
  Sig : list byte
}.

(** The functions of go-libipni and libp2p that the publisher calls and
    whose results it only passes on: they are parameters of the
    development. *)
Record Env : Type := mkEnv {
  (** [md.MarshalBinary()] *)
  MarshalBinary : Metadata -> Result (list byte);
  (** [adv.Sign(key)]: the signature it writes into the advertisement *)
  signAdvertisement : PrivKey -> Advertisement -> Result (list byte);
  (** [adv.Validate()] *)
  Validate : Advertisement -> option Error;
  (** the signature made by [head.NewSignedHead(cid, topic, key)] *)
  signHead : PrivKey -> string -> Link -> Result (list byte);
  (** the link of the chunk list built from a digest sequence; nil for
      a sequence that produces no chunk *)
  entriesLink : list Multihash -> option Link;
  (** the content-derived link of an advertisement *)
  advertLink : Advertisement -> Link
}.

(** [announce.Sender] as used through [announce.Send(ctx, cid, addrs, sender)]. *)
Record Sender : Type := mkSender {
  Send : Link -> list Multiaddr -> option Error
}.

(** ** The store

    [store.PublisherStore] is an interface of this repository; its
    implementation is not part of the sources at hand. *)

Record Store : Type := mkStore {
  chunkLinks : gmap (PeerID * ContextID) Link;
  metadatas : gmap (PeerID * ContextID) Metadata;
  entries : gmap Link (list Multihash);
  adverts : gmap Link Advertisement;
  head : option SignedHead
}.

Definition emptyStore : Store := mkStore ∅ ∅ ∅ ∅ None.

Definition withEntries (s : Store) (l : Link) (mhs : list Multihash) : Store :=
  mkStore (chunkLinks s) (metadatas s) (<[l := mhs]> (entries s))
    (adverts s) (head s).

Definition withChunkLink (s : Store) (p : PeerID) (c : ContextID) (l : Link)
    : Store :=
  mkStore (<[(p, c) := l]> (chunkLinks s)) (metadatas s) (entries s)
    (adverts s) (head s).

Definition withoutChunkLink (s : Store) (p : PeerID) (c : ContextID) : Store :=
  mkStore (delete (p, c) (chunkLinks s)) (metadatas s) (entries s)
    (adverts s) (head s).

Definition withMetadata (s : Store) (p : PeerID) (c : ContextID)
    (md : Metadata) : Store :=
  mkStore (chunkLinks s) (<[(p, c) := md]> (metadatas s)) (entries s)
    (adverts s) (head s).

Definition withoutMetadata (s : Store) (p : PeerID) (c : ContextID) : Store :=
  mkStore (chunkLinks s) (delete (p, c) (metadatas s)) (entries s)
    (adverts s) (head s).

Definition withAdvert (s : Store) (lnk : Link) (adv : Advertisement) : Store :=
  mkStore (chunkLinks s) (metadatas s) (entries s)
    (<[lnk := adv]> (adverts s)) (head s).

Definition withHead (s : Store) (h : SignedHead) : Store :=
  mkStore (chunkLinks s) (metadatas s) (entries s) (adverts s) (Some h).

(** The calls the publisher makes on its collaborators, in the order made. *)
Inductive Call : Type :=
| CallChunkLinkFor (p : PeerID) (c : ContextID)
| CallPutEntries (mhs : list Multihash)
| CallPutChunkLink (p : PeerID) (c : ContextID) (l : Link)
| CallMetadataFor (p : PeerID) (c : ContextID)
| CallPutMetadata (p : PeerID) (c : ContextID) (md : Metadata)
| CallDeleteChunkLink (p : PeerID) (c : ContextID)
| CallDeleteMetadata (p : PeerID) (c : ContextID)
| CallHead
| CallPutAdvert (adv : Advertisement)
| CallPutHead (h : SignedHead)
| CallSign (adv : Advertisement)
| CallSend (l : Link) (addrs : list Multiaddr).

Record World : Type := mkWorld {
  store : Store;
  trace : list Call
}.

Definition M (A : Type) : Type := World -> A * World.

Definition ret {A : Type} (a : A) : M A := fun w => (a, w).

Definition bind {A B : Type} (m : M A) (k : A -> M B) : M B :=
  fun w => let (a, w') := m w in k a w'.

Notation "'let*' x ':=' m 'in' k" := (bind m (fun x => k))
  (at level 10, x pattern, m at level 100, k at level 200).

Definition logCall (c : Call) : M unit :=
  fun w => (tt, mkWorld (store w) (trace w ++ [c])).

Definition get_store : M Store := fun w => (store w, w).

Definition set_store (s : Store) : M unit :=
  fun w => (tt, mkWorld s (trace w)).

(** The store operations that an I/O failure can hit, and a plan saying
    which of them fail during one call of the publisher (each is invoked at
    most once per call). *)
Inductive StoreOp : Type :=
| OpChunkLinkFor | OpPutEntries | OpPutChunkLink | OpMetadataFor
| OpPutMetadata | OpDeleteChunkLink | OpDeleteMetadata
| OpHead | OpPutAdvert | OpPutHead.

#[global] Instance StoreOp_eq_dec : EqDecision StoreOp.
Proof. solve_decision. Defined.

Definition Faults : Type := StoreOp -> option string.

Definition noFaults : Faults := fun _ => None.

(** Modelled from the spec: [store.IsNotFound] of the missing package
    [ipnipublisher/store], the test for the "not found" signal of the
    key-value store. *)
Definition IsNotFound (err : Error) : bool := errors_Is err ErrNotFound.

(** The operations of [store.PublisherStore].  The package
    [ipnipublisher/store] that implements them is missing; after sections 1,
    5 and 6 of the specification it is a key-value store with get, put and
    delete by key that answers a missing key with the not-found signal, and
    every operation is atomic, so one that fails leaves the store as it was.
    A lookup that fails hands back Go's zero value next to the error. *)
Section PublisherStore.

Variable env : Env.
Variable faults : Faults.

(** The error a store operation fails with under the plan, if it does. *)
Definition failure (op : StoreOp) : option Error := ErrFailure <$> faults op.

(** Modelled from the spec: the missing [ChunkLinkForProviderAndContextID],
    [chunkLink(provider, contextID) → link | NotFound]. *)
Definition ChunkLinkForProviderAndContextID (p : PeerID) (contextID : ContextID)
  : M (option Link * option Error) :=
  let* _ := logCall (CallChunkLinkFor p contextID) in
  let* s := get_store in
  match failure OpChunkLinkFor with
  | Some err => ret (None, Some err)
  | None =>
      match chunkLinks s !! (p, contextID) with
      | Some l => ret (Some l, None)
      | None => ret (None, Some ErrNotFound)
      end
  end.

(** Modelled from the spec: the missing [PutEntries], [materialize(digests)
    → link]; the chunks are kept under the link when there is one. *)
Definition PutEntries (mhs : list Multihash) : M (option Link * option Error) :=
  let* _ := logCall (CallPutEntries mhs) in
  let* s := get_store in
  match failure OpPutEntries with
  | Some err => ret (None, Some err)
  | None =>
      match entriesLink env mhs with
      | Some l =>
          let* _ := set_store (withEntries s l mhs) in
          ret (Some l, None)
      | None => ret (None, None)
      end
  end.

(** Modelled from the spec: the missing
    [PutChunkLinkForProviderAndContextID], [putChunk(provider, contextID,
    link)]. *)
Definition PutChunkLinkForProviderAndContextID
    (p : PeerID) (contextID : ContextID) (l : Link) : M (option Error) :=
  let* _ := logCall (CallPutChunkLink p contextID l) in
  let* s := get_store in
  match failure OpPutChunkLink with
  | Some err => ret (Some err)
  | None =>
      let* _ := set_store (withChunkLink s p contextID l) in
      ret None
  end.

(** Modelled from the spec: the missing [MetadataForProviderAndContextID],
    [metadata(provider, contextID) → bytes | NotFound]. *)
Definition MetadataForProviderAndContextID (p : PeerID) (contextID : ContextID)
  : M (Metadata * option Error) :=
  let* _ := logCall (CallMetadataFor p contextID) in
  let* s := get_store in
  match failure OpMetadataFor with
  | Some err => ret (Metadata_zero, Some err)
  | None =>
      match metadatas s !! (p, contextID) with
      | Some md => ret (md, None)
      | None => ret (Metadata_zero, Some ErrNotFound)
      end
  end.

(** Modelled from the spec: the missing
    [PutMetadataForProviderAndContextID], [putMetadata(provider, contextID,
    bytes)]. *)
Definition PutMetadataForProviderAndContextID
    (p : PeerID) (contextID : ContextID) (md : Metadata) : M (option Error) :=
  let* _ := logCall (CallPutMetadata p contextID md) in
  let* s := get_store in
  match failure OpPutMetadata with
  | Some err => ret (Some err)
  | None =>
      let* _ := set_store (withMetadata s p contextID md) in
      ret None
  end.

(** Modelled from the spec: the missing
    [DeleteChunkLinkForProviderAndContextID], [deleteChunk(provider,
    contextID)]. *)
Definition DeleteChunkLinkForProviderAndContextID
    (p : PeerID) (contextID : ContextID) : M (option Error) :=
  let* _ := logCall (CallDeleteChunkLink p contextID) in
  let* s := get_store in
  match failure OpDeleteChunkLink with
  | Some err => ret (Some err)
  | None =>
      let* _ := set_store (withoutChunkLink s p contextID) in
      ret None
  end.

(** Modelled from the spec: the missing
    [DeleteMetadataForProviderAndContextID], [deleteMetadata(provider,
    contextID)]. *)
Definition DeleteMetadataForProviderAndContextID
    (p : PeerID) (contextID : ContextID) : M (option Error) :=
  let* _ := logCall (CallDeleteMetadata p contextID) in
  let* s := get_store in
  match failure OpDeleteMetadata with
  | Some err => ret (Some err)
  | None =>
      let* _ := set_store (withoutMetadata s p contextID) in
      ret None
  end.

(** Modelled from the spec: the missing [Head], [head() → link | NotFound],
    the link coming in its signed envelope. *)
Definition Head : M (option SignedHead * option Error) :=
  let* _ := logCall CallHead in
  let* s := get_store in
  match failure OpHead with
  | Some err => ret (None, Some err)
  | None =>
      match head s with
      | Some h => ret (Some h, None)
      | None => ret (None, Some ErrNotFound)
      end
  end.

(** Modelled from the spec: the missing [PutAdvert], [putAdvertisement(ad)
    → link]. *)
Definition PutAdvert (adv : Advertisement) : M (Result Link) :=
  let* _ := logCall (CallPutAdvert adv) in
  let* s := get_store in
  match failure OpPutAdvert with
  | Some err => ret (Err err)
  | None =>
      let lnk := advertLink env adv in
      let* _ := set_store (withAdvert s lnk adv) in
      ret (Ok lnk)
  end.

(** Modelled from the spec: the missing [PutHead],
    [putHead(signedHeadEnvelope)]. *)
Definition PutHead (h : SignedHead) : M (option Error) :=
  let* _ := logCall (CallPutHead h) in
  let* s := get_store in
  match failure OpPutHead with
  | Some err => ret (Some err)
  | None =>
      let* _ := set_store (withHead s h) in
      ret None
  end.

End PublisherStore.

(** ** The publisher *)

(** [IPNIPublisher], with the fields of the embedded [options] that the
    code reads; its [store] is the [Store] of the [World]. *)
Record IPNIPublisher : Type := mkIPNIPublisher {
  topic : string;
  pubHTTPAnnounceAddrs : list Multiaddr;
  sender : option Sender;
  key : PrivKey
}.

(** The pattern [if err != nil { if !store.IsNotFound(err) { return ... } }]:
    the error that makes the caller return, if any. *)
Definition unlessNotFound (err : option Error) : option Error :=
  match err with
  | Some e => if negb (IsNotFound e) then Some e else None
  | None => None
  end.

Section Publisher.

Variable env : Env.
Variable p : IPNIPublisher.
Variable faults : Faults.

(** [head.NewSignedHead(cid, topic, key)]. *)
Definition NewSignedHead (lnk : Link) (topic : string) (key : PrivKey)
  : Result SignedHead :=
  match signHead env key topic lnk with
  | Ok sig => Ok (mkSignedHead lnk topic sig)
  | Err e => Err e
  end.

(** [adv.Sign(key)], which fills in the signature. *)
Definition Sign (adv : Advertisement) (key : PrivKey) : M (Result Advertisement) :=
  let* _ := logCall (CallSign adv) in
  match signAdvertisement env key adv with
  | Ok sig => ret (Ok (with_Signature adv sig))
  | Err e => ret (Err e)
  end.

(** [announce.Send(ctx, cid, addrs, sender)]. *)
Definition announce_Send (lnk : Link) (addrs : list Multiaddr) (s : Sender)
  : M (option Error) :=
  let* _ := logCall (CallSend lnk addrs) in
  ret (Send s lnk addrs).

(** publisher.go, lines 229-251. *)
Definition publishLocal (adv : Advertisement) : M (Result Link) :=
  match Validate env adv with
  | Some err => ret (Err err)
  | None =>
      let* r := PutAdvert env faults adv in
      match r with
      | Err err => ret (Err err)
      | Ok lnk =>
          match NewSignedHead lnk (topic p) (key p) with
          | Err err =>
              ret (Err (Errorf_w
                "failed to generate signed head for the latest advertisement" err))
          | Ok head =>
              let* err := PutHead faults head in
              match err with
              | Some err =>
                  ret (Err (Errorf_w
                    "failed to update reference to latest advertisement" err))
              | None => ret (Ok lnk)
              end
          end
      end
  end.

(** publisher.go, lines 214-227. *)
Definition publish (adv : Advertisement) : M (Result Link) :=
  let* r := publishLocal adv in
  match r with
  | Err err =>
      ret (Err (Errorf_w "failed to publish advertisement locally" err))
  | Ok lnk =>
      let* _ :=
        match sender p with
        | Some s =>
            let* _ := announce_Send lnk (pubHTTPAnnounceAddrs p) s in
            ret tt
        | None => ret tt
        end in
      ret (Ok lnk)
  end.

(** publisher.go, lines 97-169: the add / remove decision, which leaves
    the entries link and the metadata of the advertisement to build. *)
Definition chooseEntries (peer : PeerID) (contextID : ContextID)
    (md : Metadata) (isRm : bool) (mhs : list Multihash)
    (chunkLink : option Link) : M (Result (Link * Metadata)) :=
  if negb isRm then
    let* r :=
      match chunkLink with
      | None =>
          let* (chunkLink, err) := PutEntries env faults mhs in
          match err with
          | Some err =>
              ret (Err (Errorf_s "could not generate entries list" err))
          | None =>
              let chunkLink :=
                match chunkLink with
                | None => NoEntries
                | Some l => l
                end in
              let* err := PutChunkLinkForProviderAndContextID faults
                            peer contextID chunkLink in
              match err with
              | Some err =>
                  ret (Err (Errorf_s
                    "failed to write provider + context id to entries cid mapping"
                    err))
              | None => ret (Ok chunkLink)
              end
          end
      | Some chunkLink =>
          let* (prevMetadata, err) :=
            MetadataForProviderAndContextID faults peer contextID in
          match unlessNotFound err with
          | Some err =>
              ret (Err (Errorf_s
                "could not get metadata for provider + context id" err))
          | None =>
              if Equal md prevMetadata then ret (Err ErrAlreadyAdvertised)
              else ret (Ok chunkLink)
          end
      end in
    match r with
    | Err err => ret (Err err)
    | Ok chunkLink =>
        let* err := PutMetadataForProviderAndContextID faults
                      peer contextID md in
        match err with
        | Some err =>
            ret (Err (Errorf_s
              "failed to write provider + context id to metadata mapping" err))
        | None => ret (Ok (chunkLink, md))
        end
    end
  else
    match chunkLink with
    | None => ret (Err ErrContextIDNotFound)
    | Some _ =>
        let* err := DeleteChunkLinkForProviderAndContextID faults
                      peer contextID in
        match err with
        | Some err =>
            ret (Err (Errorf_s
              "failed to delete provider + context id to entries cid mapping"
              err))
        | None =>
            let* err := DeleteMetadataForProviderAndContextID faults
                          peer contextID in
            match err with
            | Some err =>
                ret (Err (Errorf_s
                  "failed to delete provider + context id to metadata mapping"
                  err))
            | None => ret (Ok (NoEntries, Default_New))
            end
        end
    end.

(** publisher.go, lines 181-204: the advertisement as built before it is
    signed; [PreviousID] is set only when a previous head was read. *)
Definition newAdvertisement (peer : PeerID) (addrs : list Multiaddr)
    (contextID : ContextID) (chunkLink : Link) (mdBytes : list byte)
    (isRm : bool) (prevHead : option SignedHead) : Advertisement :=
  let stringAddrs := map Multiaddr_String addrs in
  let adv :=
    {| PreviousID := None;
       Provider := PeerID_String peer;
       Addresses := stringAddrs;
       Signature := [];
       Entries := Some chunkLink;
       ContextID_ := contextID;
       Metadata_ := mdBytes;
       IsRm := isRm |} in
  match prevHead with
  | None => adv
  | Some prevHead => with_PreviousID adv (Some (Head_ prevHead))
  end.

(** publisher.go, lines 171-211: marshal the metadata, build the
    advertisement on top of the current head, sign it and commit it. *)
Definition advertise (peer : PeerID) (addrs : list Multiaddr)
    (contextID : ContextID) (md : Metadata) (isRm : bool)
    (chunkLink : Link) : M (Result Link) :=
  match MarshalBinary env md with
  | Err err => ret (Err err)
  | Ok mdBytes =>
      let* (prevHead, err) := Head faults in
      match unlessNotFound err with
      | Some err =>
          ret (Err (Errorf_s "could not get latest advertisement" err))
      | None =>
          let adv := newAdvertisement peer addrs contextID chunkLink
                       mdBytes isRm prevHead in
          let* r := Sign adv (key p) in
          match r with
          | Err err => ret (Err err)
          | Ok adv => publish adv
          end
      end
  end.

(** publisher.go, lines 83-212: the lookup of the chunk link, then
    [chooseEntries], then [advertise]. *)
Definition publishAdvForIndex (peer : PeerID) (addrs : list Multiaddr)
    (contextID : ContextID) (md : Metadata) (isRm : bool)
    (mhs : list Multihash) : M (Result Link) :=
  let* (chunkLink, err) :=
    ChunkLinkForProviderAndContextID faults peer contextID in
  match unlessNotFound err with
  | Some err =>
      ret (Err (Errorf_s
        "could not get entries cid by provider + context id" err))
  | None =>
      let* r := chooseEntries peer contextID md isRm mhs chunkLink in
      match r with
      | Err err => ret (Err err)
      | Ok (chunkLink, md) =>
          advertise peer addrs contextID md isRm chunkLink
      end
  end.

(** publisher.go, lines 42-48. *)
Definition Publish (providerInfo : AddrInfo) (contextID : string)
    (digests : list Multihash) (meta : Metadata) : M (Result Link) :=
  let* r := publishAdvForIndex (ID providerInfo) (Addrs providerInfo)
              contextID meta false digests in
  match r with
  | Err err => ret (Err (Errorf_w "publishing IPNI advert" err))
  | Ok link => ret (Ok link)
  end.

End Publisher.

(** ** Runs of several calls *)

(** One call of [Publish] with the failures the store suffers during it. *)
Record Request : Type := mkRequest {
  reqProvider : AddrInfo;
  reqContextID : string;
  reqDigests : list Multihash;
  reqMeta : Metadata;
  reqFaults : Faults
}.

(** The calls of [reqs] made one after the other on one engine: the result
    of each call and the world it leaves. *)
Fixpoint publishAll (env : Env) (p : IPNIPublisher) (reqs : list Request)
    (w : World) : list (Result Link * World) :=
  match reqs with
  | [] => []
  | r :: reqs' =>
      let out := Publish env p (reqFaults r) (reqProvider r) (reqContextID r)
                   (reqDigests r) (reqMeta r) w in
      out :: publishAll env p reqs' (snd out)
  end.

(** The worlds an engine can be in: it starts on an empty store and makes
    calls of [publishAdvForIndex], with any arguments and any failures. *)
Inductive reachable (env : Env) (p : IPNIPublisher) : World -> Prop :=
| reachable_start : reachable env p (mkWorld emptyStore [])
| reachable_call (w : World) (faults : Faults) (peer : PeerID)
    (addrs : list Multiaddr) (contextID : ContextID) (md : Metadata)
    (isRm : bool) (mhs : list Multihash) :
    reachable env p w ->
    reachable env p
      (snd (publishAdvForIndex env p faults peer addrs contextID md isRm mhs w)).

(** The head, when there is one, names a stored advertisement. *)
Definition head_resolves (s : Store) : Prop :=
  match head s with
  | Some h => is_Some (adverts s !! Head_ h)
  | None => True
  end.

Definition is_Ok {A : Type} (r : Result A) : Prop :=
  match r with
  | Ok _ => True
  | Err _ => False
  end.

(** The signed advertisement and the signed head that a commit of [adv0]
    produces when signing, validation and head signing all succeed. *)
Definition commits (env : Env) (p : IPNIPublisher) (adv0 : Advertisement)
    : option (Advertisement * SignedHead) :=
  match signAdvertisement env (key p) adv0 with
  | Err _ => None
  | Ok sig =>
      let adv := with_Signature adv0 sig in
      match Validate env adv with
      | Some _ => None
      | None =>
          match NewSignedHead env (advertLink env adv) (topic p) (key p) with
          | Err _ => None
          | Ok h => Some (adv, h)
          end
      end
  end.

(** What the announcement step adds to the trace. *)
Definition announced (p : IPNIPublisher) (lnk : Link) : list Call :=
  match sender p with
  | Some _ => [CallSend lnk (pubHTTPAnnounceAddrs p)]
  | None => []
  end.

(** The world after one more call has been logged. *)
Definition logged (w : World) (c : Call) : World :=
  mkWorld (store w) (trace w ++ [c]).

(** ** A concrete engine

    Collaborators that never fail, with readable links, on which the calls
    below can be evaluated. *)

Definition bytes_to_string (bs : list byte) : string :=
  fold_right (fun b s => String (Ascii.ascii_of_byte b) s) "" bs.

Definition demoEnv : Env :=
  {| MarshalBinary := fun md => Ok (flat_map protoBytes (protocols md));
     signAdvertisement := fun _ _ => Ok [x01];
     Validate := fun _ => None;
     signHead := fun _ _ _ => Ok [x02];
     entriesLink := fun mhs =>
       match mhs with
       | [] => None
       | h :: _ => Some (CidLink ("chunk-" +:+ h))
       end;
     advertLink := fun adv =>
       CidLink ("ad-" +:+ bytes_to_string (Metadata_ adv) +:+
                match PreviousID adv with
                | Some l => "<" +:+ Cid l
                | None => ""
                end) |}.

Definition failingSender : Sender :=
  {| Send := fun _ _ => Some (ErrFailure "connection refused") |}.

Definition demoPublisher : IPNIPublisher :=
  {| topic := "/indexer/ingest/mainnet";
     pubHTTPAnnounceAddrs := [];
     sender := None;
     key := "key" |}.

Definition announcingPublisher : IPNIPublisher :=
  {| topic := "/indexer/ingest/mainnet";
     pubHTTPAnnounceAddrs := ["/dns4/provider/tcp/443/https"];
     sender := Some failingSender;
     key := "key" |}.

Definition providerA : AddrInfo := mkAddrInfo "peerA" ["/ip4/1.2.3.4/tcp/3000"].

Definition metaX : Metadata := mkMetadata [mkProtocol 2320 [x61]].
Definition metaY : Metadata := mkMetadata [mkProtocol 2320 [x62]].

Definition startWorld : World := mkWorld emptyStore [].

(** The store fails in exactly one operation. *)
Definition failingAt (op : StoreOp) : Faults :=
  fun op' => if bool_decide (op' = op) then Some "i/o error" else None.

(** The world after [providerA] published [d1; d2] under [ctx1] with
    [metaX]. *)
Definition worldAfterFirst : World :=
  snd (Publish demoEnv demoPublisher noFaults providerA "ctx1" ["d1"; "d2"]
         metaX startWorld).

(** An advertisement as [publishAdvForIndex] hands it to the commit. *)
Definition demoAdvert : Advertisement :=
  with_Signature
    (newAdvertisement "peerA" ["/ip4/1.2.3.4/tcp/3000"] "ctx1"
       (CidLink "chunk-d1") [x61] false None) [x01].

(** ** Construction of the publisher *)

(** The [options] that [New] fills in and the publisher embeds: the fields
    that publisher.go reads. *)
Record options : Type := mkOptions {
  o_topic : string;
  o_pubHTTPAnnounceAddrs : list Multiaddr;
  announceURLs : list string
}.

(** An [Option]: a function that updates the options or fails. *)
Definition Option_ : Type := options -> Result options.

(** The library functions [New] calls: [peer.IDFromPrivateKey] and
    [httpsender.New]. *)
Record NewEnv : Type := mkNewEnv {
  IDFromPrivateKey : PrivKey -> Result PeerID;
  httpsender_New : list string -> PeerID -> Result Sender
}.

(** publisher.go, lines 57-59: the options [New] starts from. *)
Definition defaultOptions : options :=
  {| o_topic := "/indexer/ingest/mainnet";
     o_pubHTTPAnnounceAddrs := [];
     announceURLs := [] |}.

(** publisher.go, lines 60-65: the options are applied in order, the first
    error ends the loop. *)
Fixpoint applyOptions (opts : list Option_) (o : options) : Result options :=
  match opts with
  | [] => Ok o
  | opt :: opts' =>
      match opt o with
      | Err err => Err err
      | Ok o' => applyOptions opts' o'
      end
  end.

(** publisher.go, lines 56-81. *)
Definition New (nenv : NewEnv) (id : PrivKey) (opts : list Option_)
    : Result IPNIPublisher :=
  let o := defaultOptions in
  match applyOptions opts o with
  | Err err => Err err
  | Ok o =>
      match IDFromPrivateKey nenv id with
      | Err err => Err (Errorf_w "cannot get peer ID from private key" err)
      | Ok peer =>
          let pub := {| topic := o_topic o;
                        pubHTTPAnnounceAddrs := o_pubHTTPAnnounceAddrs o;
                        sender := None;
                        key := id |} in
          if (0 <? length (announceURLs o))%nat then
            match httpsender_New nenv (announceURLs o) peer with
            | Err err =>
                Err (Errorf_w "cannot create http announce sender" err)
            | Ok sender =>
                Ok {| topic := topic pub;
                      pubHTTPAnnounceAddrs := pubHTTPAnnounceAddrs pub;
                      sender := Some sender;
                      key := key pub |}
            end
          else Ok pub
      end
  end.

(** ** Invariants of the store *)

(** Every previous link of a stored advertisement names a stored
    advertisement. *)
Definition chain_closed (s : Store) : Prop :=
  forall l a pl,
    adverts s !! l = Some a -> PreviousID a = Some pl ->
    is_Some (adverts s !! pl).

(** What the publisher guarantees of an advertisement it stores under [l]:
    [l] is its link, its signature is the one [Sign] made with the key of
    the publisher over the advertisement without signature, it passed
    [Validate], it has entries, and a removal has no entries but the
    sentinel. *)
Definition published_by (env : Env) (p : IPNIPublisher) (l : Link)
    (a : Advertisement) : Prop :=
  advertLink env a = l /\
  signAdvertisement env (key p) (with_Signature a []) = Ok (Signature a) /\
  Validate env a = None /\
  is_Some (Entries a) /\
  (IsRm a = true -> Entries a = Some NoEntries).

Definition adverts_published (env : Env) (p : IPNIPublisher) (s : Store)
    : Prop :=
  forall l a, adverts s !! l = Some a -> published_by env p l a.

(** The head carries the topic of the publisher and the signature
    [NewSignedHead] made with its key. *)
Definition head_signed (env : Env) (p : IPNIPublisher) (s : Store) : Prop :=
  forall h,
    head s = Some h ->
    Topic h = topic p /\
    signHead env (key p) (topic p) (Head_ h) = Ok (Sig h).

(** A pair has a chunk link exactly when it has metadata. *)
Definition paired (s : Store) : Prop :=
  forall k, is_Some (chunkLinks s !! k) <-> is_Some (metadatas s !! k).

(** The worlds an engine reaches while no store operation fails. *)
Inductive reachable_healthy (env : Env) (p : IPNIPublisher) : World -> Prop :=
| healthy_start : reachable_healthy env p (mkWorld emptyStore [])
| healthy_call (w : World) (faults : Faults) (peer : PeerID)
    (addrs : list Multiaddr) (contextID : ContextID) (md : Metadata)
    (isRm : bool) (mhs : list Multihash) :
    (forall op, faults op = None) ->
    reachable_healthy env p w ->
    reachable_healthy env p
      (snd (publishAdvForIndex env p faults peer addrs contextID md isRm mhs w)).

(** The store operations of the add path that come before the
    advertisement is built (lines 88-143). *)
Definition decisionOps : list StoreOp :=
  [OpChunkLinkFor; OpPutEntries; OpPutChunkLink; OpMetadataFor; OpPutMetadata].

(** The link of the head after a run with results [outs] that started with
    the head link [h0]: the link of the last call that succeeded. *)
Definition headAfter (outs : list (Result Link * World)) (h0 : option Link)
    : option Link :=
  fold_left (fun h out => match fst out with
                          | Ok l => Some l
                          | Err _ => h
                          end) outs h0.

(** The world a run ends in. *)
Definition finalWorld (outs : list (Result Link * World)) (w : World) : World :=
  fold_left (fun _ out => snd out) outs w.

(** Collaborators for [New] and an option that asks for announcements. *)
Definition demoNewEnv : NewEnv :=
  {| IDFromPrivateKey := fun id => Ok ("peer-of-" +:+ id);
     httpsender_New := fun _ _ => Ok failingSender |}.

Definition withAnnounceURL (u : string) : Option_ :=
  fun o => Ok {| o_topic := o_topic o;
                 o_pubHTTPAnnounceAddrs := o_pubHTTPAnnounceAddrs o;
                 announceURLs := announceURLs o ++ [u] |}.

Definition failingOption : Option_ :=
  fun _ => Err (ErrFailure "bad option").

Definition metaEmpty : Metadata := mkMetadata [].

(** ** Equations of the store operations and of the commit *)

Ltac exec :=
  repeat (progress (unfold PutAdvert, PutHead, Head, Sign, announce_Send,
    ChunkLinkForProviderAndContextID, PutEntries,
    PutChunkLinkForProviderAndContextID, MetadataForProviderAndContextID,
    PutMetadataForProviderAndContextID,
    DeleteChunkLinkForProviderAndContextID,
    DeleteMetadataForProviderAndContextID,
    failure, bind, ret, logCall, get_store, set_store, logged in *;
    cbn in *)).

Lemma unlessNotFound_NotFound : unlessNotFound (Some ErrNotFound) = None.
Proof. reflexivity. Qed.

Lemma unlessNotFound_failure msg :
  unlessNotFound (Some (ErrFailure msg)) = Some (ErrFailure msg).
Proof. reflexivity. Qed.

Lemma unlessNotFound_None : unlessNotFound None = None.
Proof. reflexivity. Qed.

Arguments unlessNotFound : simpl never.

Ltac exec_lookup :=
  rewrite ?unlessNotFound_NotFound, ?unlessNotFound_failure,
    ?unlessNotFound_None; cbn.

Lemma protocols_equal_eq ps qs : protocols_equal ps qs = true <-> ps = qs.
Proof.
  revert qs. induction ps as [|this ps IH]; intros [|that qs]; cbn;
    try (split; [discriminate|done]); [done|].
  repeat case_bool_decide; cbn.
  - rewrite IH. destruct this, that; cbn in *. split; [|congruence].
    intros ->. congruence.
  - split; [discriminate|congruence].
  - split; [discriminate|congruence].
  - split; [discriminate|congruence].
Qed.

(** [Equal] holds exactly between metadata with the same protocols. *)
Lemma Equal_eq m other : Equal m other = true <-> m = other.
Proof.
  unfold Equal. rewrite protocols_equal_eq.
  destruct m, other; cbn. split; congruence.
Qed.

Lemma Equal_refl m : Equal m m = true.
Proof. by apply Equal_eq. Qed.

Lemma Equal_neq m other : m <> other -> Equal m other = false.
Proof.
  intros Hne. destruct (Equal m other) eqn:HE; [|done].
  by apply Equal_eq in HE.
Qed.

Section CommitFacts.

Context (env : Env) (p : IPNIPublisher) (faults : Faults).

Lemma publishLocal_eq adv w :
  publishLocal env p faults adv w =
  match Validate env adv with
  | Some err => (Err err, w)
  | None =>
      let w1 := logged w (CallPutAdvert adv) in
      match faults OpPutAdvert with
      | Some msg => (Err (ErrFailure msg), w1)
      | None =>
          let lnk := advertLink env adv in
          let s2 := withAdvert (store w) lnk adv in
          match NewSignedHead env lnk (topic p) (key p) with
          | Err err =>
              (Err (Errorf_w
                 "failed to generate signed head for the latest advertisement"
                 err),
               mkWorld s2 (trace w1))
          | Ok h =>
              let t3 := trace w1 ++ [CallPutHead h] in
              match faults OpPutHead with
              | Some msg =>
                  (Err (Errorf_w
                     "failed to update reference to latest advertisement"
                     (ErrFailure msg)),
                   mkWorld s2 t3)
              | None => (Ok lnk, mkWorld (withHead s2 h) t3)
              end
          end
      end
  end.
Proof.
  unfold publishLocal. destruct (Validate env adv); [reflexivity|].
  exec. destruct (faults OpPutAdvert); cbn; [reflexivity|].
  destruct (NewSignedHead _ _ _ _); cbn; [|reflexivity].
  destruct (faults OpPutHead); reflexivity.
Qed.

Lemma publish_eq adv w :
  publish env p faults adv w =
  match publishLocal env p faults adv w with
  | (Err err, w1) =>
      (Err (Errorf_w "failed to publish advertisement locally" err), w1)
  | (Ok lnk, w1) =>
      (Ok lnk,
       match sender p with
       | Some _ => logged w1 (CallSend lnk (pubHTTPAnnounceAddrs p))
       | None => w1
       end)
  end.
Proof.
  unfold publish, bind.
  destruct (publishLocal env p faults adv w) as [[lnk|err] w1]; cbn;
    [|reflexivity].
  destruct (sender p); reflexivity.
Qed.

(** A failed commit keeps the head. *)
Lemma publishLocal_Err_head adv w err w' :
  publishLocal env p faults adv w = (Err err, w') ->
  head (store w') = head (store w).
Proof.
  rewrite publishLocal_eq.
  repeat (case_match; cbn); intros [= <- <-]; reflexivity.
Qed.

(** A successful commit stores the advertisement, then moves the head to
    its link. *)
Lemma publishLocal_Ok adv w lnk w' :
  publishLocal env p faults adv w = (Ok lnk, w') ->
  lnk = advertLink env adv /\ Validate env adv = None /\
  exists h,
    NewSignedHead env lnk (topic p) (key p) = Ok h /\
    store w' = withHead (withAdvert (store w) lnk adv) h /\
    trace w' = trace w ++ [CallPutAdvert adv; CallPutHead h].
Proof.
  rewrite publishLocal_eq.
  repeat (case_match; cbn); intros [= <- <-]; try discriminate.
  split; [reflexivity|]. split; [reflexivity|].
  eexists; split; [eassumption|].
  split; [reflexivity|]. cbn. by rewrite <- app_assoc.
Qed.

Lemma head_resolves_withAdvert s lnk adv :
  head_resolves s -> head_resolves (withAdvert s lnk adv).
Proof.
  unfold head_resolves, withAdvert; cbn.
  destruct (head s) as [h|]; [|done].
  intros [a Ha]. destruct (decide (lnk = Head_ h)) as [->|Hne].
  - rewrite lookup_insert_eq. eauto.
  - rewrite lookup_insert_ne by done. eauto.
Qed.

Lemma publishLocal_head_resolves adv w :
  head_resolves (store w) ->
  head_resolves (store (snd (publishLocal env p faults adv w))).
Proof.
  intros Hw. rewrite publishLocal_eq.
  destruct (Validate env adv); [exact Hw|]. cbn.
  destruct (faults OpPutAdvert); [exact Hw|].
  destruct (NewSignedHead _ _ _ _) as [h|] eqn:Hh; cbn.
  - assert (Head_ h = advertLink env adv) as Hl.
    { unfold NewSignedHead in Hh. destruct (signHead _ _ _ _); [|done].
      by injection Hh as <-. }
    destruct (faults OpPutHead); cbn.
    + by apply head_resolves_withAdvert.
    + unfold head_resolves; cbn. rewrite Hl, lookup_insert_eq. eauto.
  - by apply head_resolves_withAdvert.
Qed.

Lemma publish_head_resolves adv w :
  head_resolves (store w) ->
  head_resolves (store (snd (publish env p faults adv w))).
Proof.
  intros Hw. rewrite publish_eq.
  pose proof (publishLocal_head_resolves adv w Hw) as H.
  destruct (publishLocal env p faults adv w) as [[lnk|err] w1]; cbn in *;
    [|exact H].
  destruct (sender p); exact H.
Qed.

End CommitFacts.

(** ** Equations of the add / remove decision and of the whole call *)

Section PublishFacts.

Context (env : Env) (p : IPNIPublisher) (faults : Faults).

Lemma advertise_eq peer addrs contextID md isRm chunkLink w :
  advertise env p faults peer addrs contextID md isRm chunkLink w =
  match MarshalBinary env md with
  | Err err => (Err err, w)
  | Ok mdBytes =>
      let w1 := logged w CallHead in
      match faults OpHead with
      | Some msg =>
          (Err (Errorf_s "could not get latest advertisement"
                  (ErrFailure msg)), w1)
      | None =>
          let adv := newAdvertisement peer addrs contextID chunkLink
                       mdBytes isRm (head (store w)) in
          let w2 := logged w1 (CallSign adv) in
          match signAdvertisement env (key p) adv with
          | Err err => (Err err, w2)
          | Ok sig => publish env p faults (with_Signature adv sig) w2
          end
      end
  end.
Proof.
  unfold advertise. destruct (MarshalBinary env md); [|reflexivity].
  exec. destruct (faults OpHead); exec_lookup; [reflexivity|].
  destruct (head (store w)); exec_lookup;
    destruct (signAdvertisement _ _ _); reflexivity.
Qed.

Lemma publishAdvForIndex_eq peer addrs contextID md isRm mhs w :
  publishAdvForIndex env p faults peer addrs contextID md isRm mhs w =
  let w1 := logged w (CallChunkLinkFor peer contextID) in
  match faults OpChunkLinkFor with
  | Some msg =>
      (Err (Errorf_s "could not get entries cid by provider + context id"
              (ErrFailure msg)), w1)
  | None =>
      match chooseEntries env faults peer contextID md isRm mhs
              (chunkLinks (store w) !! (peer, contextID)) w1 with
      | (Err err, w2) => (Err err, w2)
      | (Ok (chunkLink, md'), w2) =>
          advertise env p faults peer addrs contextID md' isRm chunkLink w2
      end
  end.
Proof.
  unfold publishAdvForIndex. exec.
  destruct (faults OpChunkLinkFor); exec_lookup; [reflexivity|].
  destruct (chunkLinks (store w) !! (peer, contextID)); exec_lookup;
    destruct (chooseEntries _ _ _ _ _ _ _ _ _) as [[[]|] ?]; reflexivity.
Qed.

(** The add path when no chunk link is stored yet (lines 101-120, 141). *)
Lemma chooseEntries_fresh peer contextID md mhs w :
  chooseEntries env faults peer contextID md false mhs None w =
  let w1 := logged w (CallPutEntries mhs) in
  match faults OpPutEntries with
  | Some msg =>
      (Err (Errorf_s "could not generate entries list" (ErrFailure msg)), w1)
  | None =>
      let s1 := match entriesLink env mhs with
                | Some l => withEntries (store w) l mhs
                | None => store w
                end in
      let chunkLink := default NoEntries (entriesLink env mhs) in
      let t2 := trace w1 ++ [CallPutChunkLink peer contextID chunkLink] in
      match faults OpPutChunkLink with
      | Some msg =>
          (Err (Errorf_s
             "failed to write provider + context id to entries cid mapping"
             (ErrFailure msg)), mkWorld s1 t2)
      | None =>
          let s2 := withChunkLink s1 peer contextID chunkLink in
          let t3 := t2 ++ [CallPutMetadata peer contextID md] in
          match faults OpPutMetadata with
          | Some msg =>
              (Err (Errorf_s
                 "failed to write provider + context id to metadata mapping"
                 (ErrFailure msg)), mkWorld s2 t3)
          | None =>
              (Ok (chunkLink, md),
               mkWorld (withMetadata s2 peer contextID md) t3)
          end
      end
  end.
Proof.
  unfold chooseEntries. exec.
  destruct (faults OpPutEntries); cbn; [reflexivity|].
  destruct (entriesLink env mhs); cbn;
    (destruct (faults OpPutChunkLink); cbn; [reflexivity|]);
    destruct (faults OpPutMetadata); reflexivity.
Qed.

(** The add path over an existing chunk link (lines 121-143). *)
Lemma chooseEntries_reuse peer contextID md mhs l w :
  chooseEntries env faults peer contextID md false mhs (Some l) w =
  let w1 := logged w (CallMetadataFor peer contextID) in
  match faults OpMetadataFor with
  | Some msg =>
      (Err (Errorf_s "could not get metadata for provider + context id"
              (ErrFailure msg)), w1)
  | None =>
      let prevMetadata :=
        default Metadata_zero (metadatas (store w) !! (peer, contextID)) in
      if Equal md prevMetadata then (Err ErrAlreadyAdvertised, w1)
      else
        let w2 := logged w1 (CallPutMetadata peer contextID md) in
        match faults OpPutMetadata with
        | Some msg =>
            (Err (Errorf_s
               "failed to write provider + context id to metadata mapping"
               (ErrFailure msg)), w2)
        | None =>
            (Ok (l, md),
             mkWorld (withMetadata (store w) peer contextID md) (trace w2))
        end
  end.
Proof.
  unfold chooseEntries. exec.
  destruct (faults OpMetadataFor); exec_lookup; [reflexivity|].
  destruct (metadatas (store w) !! (peer, contextID)); exec_lookup;
    (destruct (Equal md _); cbn; [reflexivity|]);
    destruct (faults OpPutMetadata); reflexivity.
Qed.

(** The remove path (lines 144-169). *)
Lemma chooseEntries_remove peer contextID md mhs chunkLink w :
  chooseEntries env faults peer contextID md true mhs chunkLink w =
  match chunkLink with
  | None => (Err ErrContextIDNotFound, w)
  | Some _ =>
      let w1 := logged w (CallDeleteChunkLink peer contextID) in
      match faults OpDeleteChunkLink with
      | Some msg =>
          (Err (Errorf_s
             "failed to delete provider + context id to entries cid mapping"
             (ErrFailure msg)), w1)
      | None =>
          let s1 := withoutChunkLink (store w) peer contextID in
          let t2 := trace w1 ++ [CallDeleteMetadata peer contextID] in
          match faults OpDeleteMetadata with
          | Some msg =>
              (Err (Errorf_s
                 "failed to delete provider + context id to metadata mapping"
                 (ErrFailure msg)), mkWorld s1 t2)
          | None =>
              (Ok (NoEntries, Default_New),
               mkWorld (withoutMetadata s1 peer contextID) t2)
          end
      end
  end.
Proof.
  unfold chooseEntries. destruct chunkLink; [|reflexivity]. exec.
  destruct (faults OpDeleteChunkLink); cbn; [reflexivity|].
  destruct (faults OpDeleteMetadata); reflexivity.
Qed.

(** The decision never touches the advertisements or the head. *)
Lemma chooseEntries_frame peer contextID md isRm mhs chunkLink w :
  let w' := snd (chooseEntries env faults peer contextID md isRm mhs
                   chunkLink w) in
  head (store w') = head (store w) /\ adverts (store w') = adverts (store w).
Proof.
  destruct isRm; [rewrite chooseEntries_remove|
    destruct chunkLink; [rewrite chooseEntries_reuse|
                         rewrite chooseEntries_fresh]];
    cbn; repeat (case_match; cbn); done.
Qed.

Lemma commits_inv adv0 adv h :
  commits env p adv0 = Some (adv, h) ->
  exists sig,
    signAdvertisement env (key p) adv0 = Ok sig /\
    adv = with_Signature adv0 sig /\
    Validate env adv = None /\
    NewSignedHead env (advertLink env adv) (topic p) (key p) = Ok h /\
    Head_ h = advertLink env adv.
Proof.
  unfold commits. destruct (signAdvertisement _ _ _) as [sig|]; [|done].
  destruct (Validate _ _) eqn:HV; [done|].
  destruct (NewSignedHead _ _ _ _) as [h'|] eqn:Hh; [|done].
  intros [= <- <-]. exists sig. repeat split; try done.
  unfold NewSignedHead in Hh. destruct (signHead _ _ _ _); [|done].
  by injection Hh as <-.
Qed.

(** [advertise] when nothing fails. *)
Lemma advertise_run peer addrs contextID md isRm chunkLink w mdBytes adv h :
  MarshalBinary env md = Ok mdBytes ->
  faults OpHead = None -> faults OpPutAdvert = None ->
  faults OpPutHead = None ->
  let adv0 := newAdvertisement peer addrs contextID chunkLink mdBytes isRm
                (head (store w)) in
  commits env p adv0 = Some (adv, h) ->
  advertise env p faults peer addrs contextID md isRm chunkLink w =
    (Ok (advertLink env adv),
     mkWorld (withHead (withAdvert (store w) (advertLink env adv) adv) h)
       (trace w ++ [CallHead; CallSign adv0; CallPutAdvert adv; CallPutHead h]
          ++ announced p (advertLink env adv))).
Proof.
  intros Hmd Hf1 Hf2 Hf3 adv0 Hc.
  apply commits_inv in Hc as (sig & Hsig & -> & HV & Hh & _).
  rewrite advertise_eq, Hmd, Hf1. cbn. fold adv0. rewrite Hsig.
  rewrite publish_eq, publishLocal_eq, HV, Hf2. cbn. rewrite Hh, Hf3.
  unfold announced, logged. destruct (sender p); cbn;
    rewrite <- ?app_assoc; reflexivity.
Qed.

(** A successful [advertise]: everything succeeded, the advertisement
    sits on top of the head read at the start and is the new head. *)
Lemma advertise_Ok peer addrs contextID md isRm chunkLink w lnk w' :
  advertise env p faults peer addrs contextID md isRm chunkLink w
    = (Ok lnk, w') ->
  exists mdBytes adv h,
    MarshalBinary env md = Ok mdBytes /\
    commits env p (newAdvertisement peer addrs contextID chunkLink mdBytes
                     isRm (head (store w))) = Some (adv, h) /\
    lnk = advertLink env adv /\
    store w' = withHead (withAdvert (store w) lnk adv) h.
Proof.
  rewrite advertise_eq.
  destruct (MarshalBinary env md) as [mdBytes|]; [|done].
  destruct (faults OpHead); [done|]. cbn.
  destruct (signAdvertisement _ _ _) as [sig|] eqn:Hsig; [|done].
  rewrite publish_eq.
  destruct (publishLocal _ _ _ _ _) as [[lnk'|] w1] eqn:Hp; [|done].
  intros [= -> <-].
  apply publishLocal_Ok in Hp as (-> & HV & h & Hh & Hs & _).
  exists mdBytes, (with_Signature
    (newAdvertisement peer addrs contextID chunkLink mdBytes isRm
       (head (store w))) sig), h.
  split; [done|]. split.
  - unfold commits. by rewrite Hsig, HV, Hh.
  - split; [done|]. destruct (sender p); cbn; exact Hs.
Qed.

(** Committing leaves the chunk links and the metadata alone. *)
Lemma publish_frame adv w :
  let w' := snd (publish env p faults adv w) in
  chunkLinks (store w') = chunkLinks (store w) /\
  metadatas (store w') = metadatas (store w).
Proof.
  rewrite publish_eq, publishLocal_eq.
  repeat (case_match; cbn in *); simplify_eq; done.
Qed.

Lemma advertise_frame peer addrs contextID md isRm chunkLink w :
  let w' := snd (advertise env p faults peer addrs contextID md isRm
                   chunkLink w) in
  chunkLinks (store w') = chunkLinks (store w) /\
  metadatas (store w') = metadatas (store w).
Proof.
  rewrite advertise_eq.
  destruct (MarshalBinary env md); [|done].
  destruct (faults OpHead); [done|]. cbn.
  destruct (signAdvertisement _ _ _); [|done].
  apply (publish_frame _ (logged (logged w CallHead) _)).
Qed.

Lemma publish_Err_head adv w err w' :
  publish env p faults adv w = (Err err, w') ->
  head (store w') = head (store w).
Proof.
  rewrite publish_eq.
  destruct (publishLocal _ _ _ _ _) as [[lnk|e] w1] eqn:Hp; [done|].
  intros [= _ <-]. by eapply publishLocal_Err_head.
Qed.

(** A failed [advertise] keeps the head. *)
Lemma advertise_Err_head peer addrs contextID md isRm chunkLink w err w' :
  advertise env p faults peer addrs contextID md isRm chunkLink w
    = (Err err, w') ->
  head (store w') = head (store w).
Proof.
  rewrite advertise_eq.
  destruct (MarshalBinary env md); [|by intros [= _ <-]].
  destruct (faults OpHead); [by intros [= _ <-]|]. cbn.
  destruct (signAdvertisement _ _ _); [|by intros [= _ <-]].
  intros H. by apply publish_Err_head in H.
Qed.

Lemma advertise_head_resolves peer addrs contextID md isRm chunkLink w :
  head_resolves (store w) ->
  head_resolves (store (snd (advertise env p faults peer addrs contextID md
                               isRm chunkLink w))).
Proof.
  intros Hw. rewrite advertise_eq.
  destruct (MarshalBinary env md); [|done].
  destruct (faults OpHead); [done|]. cbn.
  destruct (signAdvertisement _ _ _); [|done].
  by apply publish_head_resolves.
Qed.

Lemma head_resolves_frame s s' :
  head s' = head s -> adverts s' = adverts s ->
  head_resolves s -> head_resolves s'.
Proof. unfold head_resolves. by intros -> ->. Qed.

Lemma publishAdvForIndex_head_resolves peer addrs contextID md isRm mhs w :
  head_resolves (store w) ->
  head_resolves (store (snd (publishAdvForIndex env p faults peer addrs
                               contextID md isRm mhs w))).
Proof.
  intros Hw. rewrite publishAdvForIndex_eq. cbn.
  destruct (faults OpChunkLinkFor); [done|].
  pose proof (chooseEntries_frame peer contextID md isRm mhs
                (chunkLinks (store w) !! (peer, contextID))
                (logged w (CallChunkLinkFor peer contextID))) as [Hh Ha].
  destruct (chooseEntries _ _ _ _ _ _ _ _ _) as [[[cl md']|] w2];
    cbn in Hh, Ha.
  - apply advertise_head_resolves. by eapply head_resolves_frame.
  - by eapply head_resolves_frame.
Qed.

(** A failed call keeps the head. *)
Lemma publishAdvForIndex_Err_head peer addrs contextID md isRm mhs w err w' :
  publishAdvForIndex env p faults peer addrs contextID md isRm mhs w
    = (Err err, w') ->
  head (store w') = head (store w).
Proof.
  rewrite publishAdvForIndex_eq. cbn.
  destruct (faults OpChunkLinkFor); [by intros [= _ <-]|].
  pose proof (chooseEntries_frame peer contextID md isRm mhs
                (chunkLinks (store w) !! (peer, contextID))
                (logged w (CallChunkLinkFor peer contextID))) as [Hh _].
  destruct (chooseEntries _ _ _ _ _ _ _ _ _) as [[[cl md']|] w2];
    cbn in Hh.
  - intros H. apply advertise_Err_head in H. congruence.
  - by intros [= _ <-].
Qed.

(** A successful call: the advertisement stored under the returned link
    sits on top of the head read during the call, and is the new head. *)
Lemma publishAdvForIndex_Ok peer addrs contextID md isRm mhs w lnk w' :
  publishAdvForIndex env p faults peer addrs contextID md isRm mhs w
    = (Ok lnk, w') ->
  exists adv h,
    adverts (store w') !! lnk = Some adv /\
    head (store w') = Some h /\ Head_ h = lnk /\
    PreviousID adv = Head_ <$> head (store w) /\
    IsRm adv = isRm.
Proof.
  rewrite publishAdvForIndex_eq. cbn.
  destruct (faults OpChunkLinkFor); [done|].
  pose proof (chooseEntries_frame peer contextID md isRm mhs
                (chunkLinks (store w) !! (peer, contextID))
                (logged w (CallChunkLinkFor peer contextID))) as [Hh _].
  destruct (chooseEntries _ _ _ _ _ _ _ _ _) as [[[cl md']|] w2];
    cbn in Hh; [|done].
  intros H. apply advertise_Ok in H as (mdBytes & adv & h & _ & Hc & -> & Hs).
  apply commits_inv in Hc as (sig & _ & -> & _ & _ & Hl).
  exists (with_Signature (newAdvertisement peer addrs contextID cl mdBytes
                            isRm (head (store w2))) sig), h.
  rewrite Hs. cbn. rewrite lookup_insert_eq.
  repeat split; try done.
  - destruct (head (store w2)); cbn; by rewrite <- Hh.
  - by destruct (head (store w2)).
Qed.

Lemma Publish_eq providerInfo contextID digests meta w :
  Publish env p faults providerInfo contextID digests meta w =
  match publishAdvForIndex env p faults (ID providerInfo) (Addrs providerInfo)
          contextID meta false digests w with
  | (Err err, w') => (Err (Errorf_w "publishing IPNI advert" err), w')
  | (Ok link, w') => (Ok link, w')
  end.
Proof.
  unfold Publish, bind.
  by destruct (publishAdvForIndex _ _ _ _ _ _ _ _ _ _) as [[|] ?].
Qed.

End PublishFacts.

Arguments chooseEntries : simpl never.
Arguments advertise : simpl never.
Arguments publish : simpl never.
Arguments publishLocal : simpl never.

Ltac no_new_call :=
  rewrite ?elem_of_app, ?list_elem_of_singleton; intuition discriminate.

Section AddPathFacts.

Context (env : Env) (p : IPNIPublisher) (faults : Faults).

(** A successful call on the add path: the advertisement carries the
    chunk link now stored for the pair, which is the one found at the
    start when there was one, and the metadata stored is the one given. *)
Lemma publishAdvForIndex_add_Ok peer addrs contextID md mhs w lnk w' :
  publishAdvForIndex env p faults peer addrs contextID md false mhs w
    = (Ok lnk, w') ->
  exists adv chunkLink mdBytes,
    adverts (store w') !! lnk = Some adv /\
    Entries adv = Some chunkLink /\ IsRm adv = false /\
    MarshalBinary env md = Ok mdBytes /\ Metadata_ adv = mdBytes /\
    chunkLinks (store w') !! (peer, contextID) = Some chunkLink /\
    metadatas (store w') !! (peer, contextID) = Some md /\
    match chunkLinks (store w) !! (peer, contextID) with
    | Some l =>
        chunkLink = l /\
        chunkLinks (store w') = chunkLinks (store w) /\
        Equal md (default Metadata_zero
                    (metadatas (store w) !! (peer, contextID))) = false
    | None => chunkLink = default NoEntries (entriesLink env mhs)
    end.
Proof.
  rewrite publishAdvForIndex_eq. cbv zeta.
  destruct (faults OpChunkLinkFor); [done|].
  destruct (chooseEntries _ _ _ _ _ _ _ _ _) as [[[cl md']|] w2] eqn:Hc;
    [|done].
  intros H.
  apply advertise_Ok in H as (mdBytes & adv & h & HM & Hcm & -> & Hs).
  apply commits_inv in Hcm as (sig & _ & -> & _ & _ & _).
  assert (md' = md /\
          chunkLinks (store w2) !! (peer, contextID) = Some cl /\
          metadatas (store w2) !! (peer, contextID) = Some md /\
          match chunkLinks (store w) !! (peer, contextID) with
          | Some l =>
              cl = l /\ chunkLinks (store w2) = chunkLinks (store w) /\
              Equal md (default Metadata_zero
                          (metadatas (store w) !! (peer, contextID))) = false
          | None => cl = default NoEntries (entriesLink env mhs)
          end) as (-> & Hk & Hm & Hcase).
  { destruct (chunkLinks (store w) !! (peer, contextID)) as [l|] eqn:Hl.
    - rewrite chooseEntries_reuse in Hc. cbn in Hc.
      destruct (faults OpMetadataFor); [done|].
      destruct (Equal md _) eqn:HE; [done|].
      destruct (faults OpPutMetadata); [done|].
      injection Hc as <- <- <-. cbn. by rewrite lookup_insert_eq.
    - rewrite chooseEntries_fresh in Hc. cbn in Hc.
      destruct (faults OpPutEntries); [done|].
      destruct (faults OpPutChunkLink); [done|].
      destruct (faults OpPutMetadata); [done|].
      injection Hc as <- <- <-. cbn. by rewrite !lookup_insert_eq. }
  eexists _, cl, mdBytes. rewrite Hs. cbn. rewrite lookup_insert_eq.
  split; [reflexivity|].
  split; [by destruct (head (store w2))|].
  split; [by destruct (head (store w2))|].
  split; [done|].
  split; [by destruct (head (store w2))|].
  done.
Qed.

(** With a chunk link stored for the pair, the add path never calls
    [PutEntries]. *)
Lemma chooseEntries_reuse_trace peer contextID md mhs l w m :
  CallPutEntries m ∈ trace (snd (chooseEntries env faults peer contextID md
                                   false mhs (Some l) w)) ->
  CallPutEntries m ∈ trace w.
Proof.
  rewrite chooseEntries_reuse. cbn.
  repeat (case_match; cbn); no_new_call.
Qed.

Lemma advertise_trace peer addrs contextID md isRm chunkLink w m :
  CallPutEntries m ∈ trace (snd (advertise env p faults peer addrs contextID
                                   md isRm chunkLink w)) ->
  CallPutEntries m ∈ trace w.
Proof.
  rewrite advertise_eq.
  destruct (MarshalBinary env md); [|done].
  destruct (faults OpHead); cbn; [no_new_call|].
  destruct (signAdvertisement _ _ _); cbn; [|no_new_call].
  rewrite publish_eq, publishLocal_eq.
  repeat (case_match; cbn in *); simplify_eq; cbn; no_new_call.
Qed.

End AddPathFacts.

Section Runs.

Context (env : Env) (p : IPNIPublisher) (faults : Faults).

Hypothesis no_faults : forall op, faults op = None.

(** The whole call on the add path over an existing chunk link, when
    nothing fails. *)
Lemma publishAdvForIndex_reuse_run peer addrs contextID md mhs w l mdBytes
    adv h :
  chunkLinks (store w) !! (peer, contextID) = Some l ->
  Equal md (default Metadata_zero
              (metadatas (store w) !! (peer, contextID))) = false ->
  MarshalBinary env md = Ok mdBytes ->
  commits env p (newAdvertisement peer addrs contextID l mdBytes false
                   (head (store w))) = Some (adv, h) ->
  exists t,
    publishAdvForIndex env p faults peer addrs contextID md false mhs w =
      (Ok (advertLink env adv),
       mkWorld (withHead (withAdvert (withMetadata (store w) peer contextID
                                        md) (advertLink env adv) adv) h) t).
Proof.
  intros Hl HE HM Hc.
  rewrite publishAdvForIndex_eq, no_faults, Hl. cbv zeta.
  rewrite chooseEntries_reuse, no_faults. cbn. rewrite HE, no_faults.
  eexists. by erewrite advertise_run.
Qed.

(** The whole call on the add path without a stored chunk link, when
    nothing fails. *)
Lemma publishAdvForIndex_fresh_run peer addrs contextID md mhs w mdBytes
    adv h :
  chunkLinks (store w) !! (peer, contextID) = None ->
  let chunkLink := default NoEntries (entriesLink env mhs) in
  MarshalBinary env md = Ok mdBytes ->
  commits env p (newAdvertisement peer addrs contextID chunkLink mdBytes
                   false (head (store w))) = Some (adv, h) ->
  exists s t,
    publishAdvForIndex env p faults peer addrs contextID md false mhs w =
      (Ok (advertLink env adv),
       mkWorld (withHead (withAdvert (withMetadata (withChunkLink s peer
                  contextID chunkLink) peer contextID md)
                  (advertLink env adv) adv) h) t).
Proof.
  intros Hl chunkLink HM Hc.
  rewrite publishAdvForIndex_eq, no_faults, Hl. cbv zeta.
  rewrite chooseEntries_fresh, !no_faults. cbv zeta.
  eexists _, _. erewrite advertise_run; try done.
  by destruct (entriesLink env mhs).
Qed.

(** The whole call on the remove path, when nothing fails. *)
Lemma publishAdvForIndex_remove_run peer addrs contextID md mhs w l mdBytes
    adv h :
  chunkLinks (store w) !! (peer, contextID) = Some l ->
  MarshalBinary env Default_New = Ok mdBytes ->
  commits env p (newAdvertisement peer addrs contextID NoEntries mdBytes
                   true (head (store w))) = Some (adv, h) ->
  exists t,
    publishAdvForIndex env p faults peer addrs contextID md true mhs w =
      (Ok (advertLink env adv),
       mkWorld (withHead (withAdvert (withoutMetadata (withoutChunkLink
                  (store w) peer contextID) peer contextID)
                  (advertLink env adv) adv) h) t).
Proof.
  intros Hl HM Hc.
  rewrite publishAdvForIndex_eq, no_faults, Hl. cbv zeta.
  rewrite chooseEntries_remove, !no_faults. cbv zeta.
  eexists. by erewrite advertise_run.
Qed.

End Runs.

Lemma reachable_head_resolves env p w :
  reachable env p w -> head_resolves (store w).
Proof.
  induction 1 as [|w faults peer addrs contextID md isRm mhs _ IH].
  - exact I.
  - by apply publishAdvForIndex_head_resolves.
Qed.

(** ** Commit order *)

(** C2: in [publishLocal] the head is put only after the advertisement has
    been put, and under the link that put returned.  When validation fails,
    when storing the advertisement fails or when the signed head cannot be
    built, the call fails without calling [PutHead] and the head keeps its
    prior value; any failed commit keeps the head.  Hence a head that names
    a stored advertisement before the call still does so after it, whatever
    fails, and in every reachable world the head resolves in the store. *)
Theorem publishLocal_head_after_advert env p faults adv w :
  let out := publishLocal env p faults adv w in
  (is_Some (Validate env adv) \/ is_Some (faults OpPutAdvert) \/
   ~ is_Ok (NewSignedHead env (advertLink env adv) (topic p) (key p)) ->
   ~ is_Ok (fst out) /\
   head (store (snd out)) = head (store w) /\
   (trace (snd out) = trace w \/
    trace (snd out) = trace w ++ [CallPutAdvert adv])) /\
  (~ is_Ok (fst out) -> head (store (snd out)) = head (store w)) /\
  (head (store (snd out)) <> head (store w) ->
   exists h,
     head (store (snd out)) = Some h /\
     adverts (store (snd out)) !! Head_ h = Some adv /\
     trace (snd out) = trace w ++ [CallPutAdvert adv; CallPutHead h]) /\
  (head_resolves (store w) -> head_resolves (store (snd out))) /\
  (reachable env p w ->
   head_resolves (store w) /\ head_resolves (store (snd out))).
Proof.
  intros out.
  assert (is_Some (Validate env adv) \/ is_Some (faults OpPutAdvert) \/
          ~ is_Ok (NewSignedHead env (advertLink env adv) (topic p) (key p)) ->
          (exists err, fst out = Err err) /\
          (trace (snd out) = trace w \/
           trace (snd out) = trace w ++ [CallPutAdvert adv])) as Hearly.
  { subst out. rewrite publishLocal_eq. intros [[e He]|[[m Hm]|Hn]].
    - rewrite He. cbn. eauto.
    - destruct (Validate env adv); cbn; [eauto|]. rewrite Hm. cbn. eauto.
    - destruct (Validate env adv); cbn; [eauto|].
      destruct (faults OpPutAdvert); cbn; [eauto|].
      destruct (NewSignedHead _ _ _ _); cbn; [by destruct Hn|eauto]. }
  assert (~ is_Ok (fst out) -> head (store (snd out)) = head (store w))
    as Herr.
  { intros Hn. destruct out as [[lnk|err] w'] eqn:Hout; [by destruct Hn|].
    by eapply publishLocal_Err_head. }
  split; [|split; [exact Herr|split; [|split]]].
  - intros H. destruct (Hearly H) as [[err Herr'] Ht].
    assert (~ is_Ok (fst out)) as Hn by (rewrite Herr'; intros []).
    auto.
  - intros Hn. destruct out as [[lnk|err] w'] eqn:Hout; cbn in *.
    + apply publishLocal_Ok in Hout as (-> & _ & h & Hh & Hs & Ht).
      exists h. rewrite Hs. cbn. split; [done|]. split; [|done].
      unfold NewSignedHead in Hh. destruct (signHead _ _ _ _); [|done].
      injection Hh as <-. cbn. by rewrite lookup_insert_eq.
    + by apply publishLocal_Err_head in Hout.
  - by apply publishLocal_head_resolves.
  - intros Hr. split; [by eapply reachable_head_resolves|].
    apply publishLocal_head_resolves. by eapply reachable_head_resolves.
Qed.

(** A commit whose store fails while putting the advertisement: the head of
    [worldAfterFirst] stays, and it still resolves. *)
Lemma publishLocal_head_after_advert_witness :
  let out := publishLocal demoEnv demoPublisher (failingAt OpPutAdvert)
               demoAdvert worldAfterFirst in
  head (store (snd out)) = head (store worldAfterFirst) /\
  head_resolves (store (snd out)).
Proof.
  pose proof (publishLocal_head_after_advert demoEnv demoPublisher
                (failingAt OpPutAdvert) demoAdvert worldAfterFirst)
    as (H1 & _ & _ & H4 & _).
  split.
  - apply H1. right; left. vm_compute. eauto.
  - apply H4. vm_compute. eauto.
Defined.

(** ** Announcements *)

(** C8: once the local commit has succeeded, [publish] returns the link of
    the advertisement without an error, whatever the sender answers: with a
    sender, the only trace of the announcement is the call of [Send], whose
    error is dropped; without one, no announcement is attempted. *)
Theorem publish_swallows_announce_failure env p faults adv w lnk w1 :
  publishLocal env p faults adv w = (Ok lnk, w1) ->
  lnk = advertLink env adv /\
  fst (publish env p faults adv w) = Ok lnk /\
  store (snd (publish env p faults adv w)) = store w1 /\
  (forall s, sender p = Some s ->
     is_Some (Send s lnk (pubHTTPAnnounceAddrs p)) ->
     publish env p faults adv w =
       (Ok lnk, logged w1 (CallSend lnk (pubHTTPAnnounceAddrs p)))) /\
  (sender p = None -> publish env p faults adv w = (Ok lnk, w1)).
Proof.
  intros Hp. rewrite publish_eq, Hp. cbn.
  split; [by apply publishLocal_Ok in Hp as [? _]|].
  split; [done|]. split; [by destruct (sender p)|].
  split; [by intros s -> _|by intros ->].
Qed.

(** The commit of [demoAdvert] on an engine whose sender always fails. *)
Lemma publish_swallows_announce_failure_witness :
  exists lnk,
    fst (publish demoEnv announcingPublisher noFaults demoAdvert startWorld)
      = Ok lnk /\
    Send failingSender lnk (pubHTTPAnnounceAddrs announcingPublisher)
      = Some (ErrFailure "connection refused").
Proof.
  exists (advertLink demoEnv demoAdvert). split; [|reflexivity].
  eapply (publish_swallows_announce_failure demoEnv announcingPublisher
            noFaults demoAdvert startWorld).
  vm_compute. reflexivity.
Defined.

(** ** Idempotency *)

(** C3: after a [Publish] that succeeded, the same [Publish] again (same
    provider, context ID, digests and metadata, no call in between) returns
    no link and changes nothing in the store, the head included; when its
    two lookups go through, what it returns is [ErrAlreadyAdvertised],
    wrapped by [Publish], after the two lookups and nothing else. *)
Theorem Publish_twice_AlreadyAdvertised env p faults1 faults2 providerInfo
    (contextID : ContextID) digests meta w lnk w1 :
  Publish env p faults1 providerInfo contextID digests meta w = (Ok lnk, w1) ->
  let out := Publish env p faults2 providerInfo contextID digests meta w1 in
  (exists err, fst out = Err err) /\
  store (snd out) = store w1 /\
  (faults2 OpChunkLinkFor = None -> faults2 OpMetadataFor = None ->
   out = (Err (Errorf_w "publishing IPNI advert" ErrAlreadyAdvertised),
          mkWorld (store w1)
            (trace w1 ++ [CallChunkLinkFor (ID providerInfo) contextID;
                          CallMetadataFor (ID providerInfo) contextID])) /\
   errors_Is (Errorf_w "publishing IPNI advert" ErrAlreadyAdvertised)
     ErrAlreadyAdvertised = true).
Proof.
  intros H1 out. rewrite Publish_eq in H1.
  destruct (publishAdvForIndex _ _ faults1 _ _ _ _ _ _ _) as [[l'|] w1']
    eqn:Hfirst; [|done].
  injection H1 as -> ->.
  apply publishAdvForIndex_add_Ok in Hfirst
    as (adv & cl & mdBytes & _ & _ & _ & _ & _ & Hcl & Hmd & _).
  subst out. rewrite Publish_eq, publishAdvForIndex_eq. cbv zeta.
  destruct (faults2 OpChunkLinkFor) eqn:Hf1; cbn.
  { split; [eauto|]. split; [done|]. done. }
  rewrite Hcl, chooseEntries_reuse. cbn.
  destruct (faults2 OpMetadataFor) eqn:Hf2; cbn.
  { split; [eauto|]. split; [done|]. done. }
  rewrite Hmd. cbn. rewrite Equal_refl. cbn.
  split; [eauto|]. split; [done|]. intros _ _.
  split; [|reflexivity]. unfold logged; cbn. by rewrite <- app_assoc.
Qed.

(** The example of the specification: [metaX] published twice under
    [ctx1]. *)
Lemma Publish_twice_AlreadyAdvertised_witness :
  fst (Publish demoEnv demoPublisher noFaults providerA "ctx1" ["d1"; "d2"]
         metaX worldAfterFirst)
    = Err (Errorf_w "publishing IPNI advert" ErrAlreadyAdvertised) /\
  store (snd (Publish demoEnv demoPublisher noFaults providerA "ctx1"
                ["d1"; "d2"] metaX worldAfterFirst))
    = store worldAfterFirst.
Proof.
  destruct (Publish_twice_AlreadyAdvertised demoEnv demoPublisher noFaults
              noFaults providerA "ctx1" ["d1"; "d2"] metaX startWorld
              (CidLink "ad-a") worldAfterFirst)
    as (_ & Hs & Hout).
  - vm_compute. reflexivity.
  - split; [|exact Hs].
    destruct (Hout eq_refl eq_refl) as [-> _]. reflexivity.
Defined.

(** ** Metadata-only republish *)

(** C5: [Publish] under a pair that has a chunk link stored, with metadata
    different from the metadata stored.  A link it returns names a stored
    advertisement whose entries are the chunk link stored before, with
    [IsRm] false; the metadata stored for the pair is then the new one and
    the chunk link is kept; [PutEntries] is not called.  And the call does
    succeed when no store operation fails and marshalling, signing and
    validation succeed. *)
Theorem Publish_new_metadata_reuses_chunk env p faults providerInfo
    (contextID : ContextID) digests meta w l m0 :
  chunkLinks (store w) !! (ID providerInfo, contextID) = Some l ->
  metadatas (store w) !! (ID providerInfo, contextID) = Some m0 ->
  meta <> m0 ->
  let out := Publish env p faults providerInfo contextID digests meta w in
  (forall lnk w', out = (Ok lnk, w') ->
     exists adv,
       adverts (store w') !! lnk = Some adv /\
       Entries adv = Some l /\ IsRm adv = false /\
       metadatas (store w') !! (ID providerInfo, contextID) = Some meta /\
       chunkLinks (store w') !! (ID providerInfo, contextID) = Some l) /\
  (forall m, CallPutEntries m ∈ trace (snd out) -> CallPutEntries m ∈ trace w) /\
  (forall mdBytes adv h,
     (forall op, faults op = None) ->
     MarshalBinary env meta = Ok mdBytes ->
     commits env p (newAdvertisement (ID providerInfo) (Addrs providerInfo)
                      contextID l mdBytes false (head (store w)))
       = Some (adv, h) ->
     fst out = Ok (advertLink env adv)).
Proof.
  intros Hl Hm Hne out. subst out. rewrite Publish_eq.
  split; [|split].
  - intros lnk w' H.
    destruct (publishAdvForIndex _ _ _ _ _ _ _ _ _ _) as [[l'|] w1'] eqn:Hp;
      [|done].
    injection H as -> ->.
    apply publishAdvForIndex_add_Ok in Hp
      as (adv & cl & mdBytes & Ha & He & Hr & _ & _ & Hcl & Hmd & Hcase).
    rewrite Hl in Hcase. destruct Hcase as (-> & _ & _).
    by exists adv.
  - intros m. rewrite publishAdvForIndex_eq, Hl. cbv zeta.
    destruct (faults OpChunkLinkFor); cbn; [no_new_call|].
    pose proof (chooseEntries_reuse_trace env faults (ID providerInfo)
                  contextID meta digests l
                  (logged w (CallChunkLinkFor (ID providerInfo) contextID)) m)
      as Hc.
    destruct (chooseEntries _ _ _ _ _ _ _ _ _) as [[[cl md']|] w2]; cbn in *.
    + intros H. assert (CallPutEntries m ∈ trace w2) as H2.
      { pose proof (advertise_trace env p faults (ID providerInfo)
                      (Addrs providerInfo) contextID md' false cl w2 m) as Ht.
        destruct (advertise _ _ _ _ _ _ _ _ _ _) as [[|] ?]; by apply Ht. }
      specialize (Hc H2). revert Hc. no_new_call.
    + intros H. specialize (Hc H). revert Hc. no_new_call.
  - intros mdBytes adv h Hnf HM Hc.
    destruct (publishAdvForIndex_reuse_run env p faults Hnf (ID providerInfo)
                (Addrs providerInfo) contextID meta digests w l mdBytes adv h)
      as [t ->]; try done.
    rewrite Hm. cbn. by apply Equal_neq.
Qed.

(** The example of the specification: [metaY] published under [ctx1] after
    [metaX]. *)
Lemma Publish_new_metadata_reuses_chunk_witness :
  exists adv,
    fst (Publish demoEnv demoPublisher noFaults providerA "ctx1" ["d1"; "d2"]
           metaY worldAfterFirst) = Ok (advertLink demoEnv adv) /\
    Entries adv = Some (CidLink "chunk-d1") /\
    PreviousID adv = Some (CidLink "ad-a").
Proof.
  pose proof (Publish_new_metadata_reuses_chunk demoEnv demoPublisher noFaults
                providerA "ctx1" ["d1"; "d2"] metaY worldAfterFirst
                (CidLink "chunk-d1") metaX) as H.
  destruct H as (_ & _ & H).
  - vm_compute. reflexivity.
  - vm_compute. reflexivity.
  - discriminate.
  - eexists. split.
    + eapply (H [x62]).
      * reflexivity.
      * reflexivity.
      * vm_compute. reflexivity.
    + split; reflexivity.
Defined.

(** ** Digest sequences that produce no chunk *)

(** C9: on the add path for a pair without a stored chunk link, when
    [PutEntries] succeeds and hands back no link, the chunk link persisted
    for the pair is [NoEntries] (as soon as that write goes through, whatever
    happens later), an advertisement the call stores has [NoEntries] as its
    entries, and the missing link is no error: the call succeeds when no
    store operation fails and marshalling, signing and validation succeed. *)
Theorem empty_entries_use_NoEntries env p faults peer addrs contextID md mhs w :
  chunkLinks (store w) !! (peer, contextID) = None ->
  faults OpChunkLinkFor = None ->
  faults OpPutEntries = None ->
  entriesLink env mhs = None ->
  let out := publishAdvForIndex env p faults peer addrs contextID md false
               mhs w in
  fst (PutEntries env faults mhs w) = (None, None) /\
  (faults OpPutChunkLink = None ->
   chunkLinks (store (snd out)) !! (peer, contextID) = Some NoEntries) /\
  (forall lnk w', out = (Ok lnk, w') ->
     exists adv,
       adverts (store w') !! lnk = Some adv /\
       Entries adv = Some NoEntries /\
       chunkLinks (store w') !! (peer, contextID) = Some NoEntries) /\
  (forall mdBytes adv h,
     (forall op, faults op = None) ->
     MarshalBinary env md = Ok mdBytes ->
     commits env p (newAdvertisement peer addrs contextID NoEntries mdBytes
                      false (head (store w))) = Some (adv, h) ->
     fst out = Ok (advertLink env adv)).
Proof.
  intros Hl Hf1 Hf2 He out. split; [|split; [|split]].
  - exec. by rewrite Hf2, He.
  - intros Hf3. subst out.
    rewrite publishAdvForIndex_eq, Hf1, Hl. cbv zeta.
    rewrite chooseEntries_fresh, Hf2, Hf3, He. cbn.
    destruct (faults OpPutMetadata); cbn; [by rewrite lookup_insert_eq|].
    match goal with
    | |- chunkLinks (store (snd (advertise ?e ?p ?f ?a ?b ?c ?d ?i ?l ?w0)))
           !! _ = _ =>
        destruct (advertise_frame e p f a b c d i l w0) as [-> _]
    end.
    cbn. by rewrite lookup_insert_eq.
  - intros lnk w' H. subst out.
    apply publishAdvForIndex_add_Ok in H
      as (adv & cl & mdBytes & Ha & HE & _ & _ & _ & Hcl & _ & Hcase).
    rewrite Hl, He in Hcase. cbn in Hcase. subst cl. by exists adv.
  - intros mdBytes adv h Hnf HM Hc. subst out.
    destruct (publishAdvForIndex_fresh_run env p faults Hnf peer addrs
                contextID md mhs w mdBytes adv h) as (s & t & ->); try done.
    by rewrite He.
Qed.

(** [providerA] publishing an empty digest sequence under a new context. *)
Lemma empty_entries_use_NoEntries_witness :
  chunkLinks (store (snd (publishAdvForIndex demoEnv demoPublisher noFaults
                            "peerA" [] "ctx0" metaX false [] startWorld)))
    !! ("peerA", "ctx0") = Some NoEntries.
Proof.
  apply (empty_entries_use_NoEntries demoEnv demoPublisher noFaults
           "peerA" [] "ctx0" metaX [] startWorld); reflexivity.
Defined.

(** ** Digests under a known context *)

(** C10: while a chunk link is stored for the pair, [Publish] does not look
    at its digests: with any two digest sequences it returns the same result
    and leaves the same store and the same trace, [PutEntries] is never
    called, and an advertisement it stores has the old chunk link as its
    entries. *)
Theorem Publish_ignores_digests_of_known_context env p faults providerInfo
    (contextID : ContextID) meta mhs1 mhs2 w l :
  chunkLinks (store w) !! (ID providerInfo, contextID) = Some l ->
  Publish env p faults providerInfo contextID mhs1 meta w =
    Publish env p faults providerInfo contextID mhs2 meta w /\
  (forall m,
     CallPutEntries m ∈ trace (snd (Publish env p faults providerInfo contextID
                                      mhs1 meta w)) ->
     CallPutEntries m ∈ trace w) /\
  (forall lnk w',
     Publish env p faults providerInfo contextID mhs1 meta w = (Ok lnk, w') ->
     exists adv,
       adverts (store w') !! lnk = Some adv /\ Entries adv = Some l /\
       chunkLinks (store w') = chunkLinks (store w)).
Proof.
  intros Hl. split; [|split].
  - rewrite !Publish_eq, !publishAdvForIndex_eq, Hl. cbv zeta.
    by rewrite !chooseEntries_reuse.
  - intros m. rewrite Publish_eq, publishAdvForIndex_eq, Hl. cbv zeta.
    destruct (faults OpChunkLinkFor); cbn; [no_new_call|].
    pose proof (chooseEntries_reuse_trace env faults (ID providerInfo)
                  contextID meta mhs1 l
                  (logged w (CallChunkLinkFor (ID providerInfo) contextID)) m)
      as Hc.
    destruct (chooseEntries _ _ _ _ _ _ _ _ _) as [[[cl md']|] w2]; cbn in *.
    + intros H. assert (CallPutEntries m ∈ trace w2) as H2.
      { pose proof (advertise_trace env p faults (ID providerInfo)
                      (Addrs providerInfo) contextID md' false cl w2 m) as Ht.
        destruct (advertise _ _ _ _ _ _ _ _ _ _) as [[|] ?]; by apply Ht. }
      specialize (Hc H2). revert Hc. no_new_call.
    + intros H. specialize (Hc H). revert Hc. no_new_call.
  - intros lnk w'. rewrite Publish_eq.
    destruct (publishAdvForIndex _ _ _ _ _ _ _ _ _ _) as [[l'|] w1'] eqn:Hp;
      [|done].
    intros [= -> ->].
    apply publishAdvForIndex_add_Ok in Hp
      as (adv & cl & mdBytes & Ha & He & _ & _ & _ & _ & _ & Hcase).
    rewrite Hl in Hcase. destruct Hcase as (-> & Hk & _).
    by exists adv.
Qed.

(** Other digests under [ctx1], which already has a chunk. *)
Lemma Publish_ignores_digests_of_known_context_witness :
  Publish demoEnv demoPublisher noFaults providerA "ctx1" ["d1"; "d2"] metaY
    worldAfterFirst =
  Publish demoEnv demoPublisher noFaults providerA "ctx1" ["d7"; "d8"; "d9"]
    metaY worldAfterFirst.
Proof.
  apply (Publish_ignores_digests_of_known_context demoEnv demoPublisher
           noFaults providerA "ctx1" metaY ["d1"; "d2"] ["d7"; "d8"; "d9"]
           worldAfterFirst (CidLink "chunk-d1")).
  vm_compute. reflexivity.
Defined.

(** ** Removal *)

Lemma ChunkLinkFor_NotFound faults peer contextID w :
  fst (ChunkLinkForProviderAndContextID faults peer contextID w)
    = (None, Some ErrNotFound) ->
  faults OpChunkLinkFor = None /\
  chunkLinks (store w) !! (peer, contextID) = None.
Proof.
  exec. destruct (faults OpChunkLinkFor); cbn; [done|].
  by destruct (chunkLinks (store w) !! (peer, contextID)).
Qed.

(** C6: a removal for a pair whose chunk link lookup answers not-found fails
    with [ErrContextIDNotFound]; the lookup is the only call made (nothing
    is signed, stored or deleted) and the store is left as it was. *)
Theorem remove_unknown_context_fails env p faults peer addrs contextID md mhs
    w :
  fst (ChunkLinkForProviderAndContextID faults peer contextID w)
    = (None, Some ErrNotFound) ->
  let out := publishAdvForIndex env p faults peer addrs contextID md true
               mhs w in
  fst out = Err ErrContextIDNotFound /\
  store (snd out) = store w /\
  trace (snd out) = trace w ++ [CallChunkLinkFor peer contextID].
Proof.
  intros [Hf Hl]%ChunkLinkFor_NotFound out. subst out.
  rewrite publishAdvForIndex_eq, Hf, Hl. cbv zeta.
  by rewrite chooseEntries_remove.
Qed.

(** Removing [ctx9], which was never published. *)
Lemma remove_unknown_context_fails_witness :
  fst (publishAdvForIndex demoEnv demoPublisher noFaults "peerA" [] "ctx9"
         metaX true [] worldAfterFirst) = Err ErrContextIDNotFound.
Proof.
  apply (remove_unknown_context_fails demoEnv demoPublisher noFaults "peerA"
           [] "ctx9" metaX [] worldAfterFirst).
  vm_compute. reflexivity.
Defined.

(** C7: after a successful removal, which needs a chunk link stored for the
    pair, the chunk link and the metadata of the pair are gone, so that
    looking them up answers not-found, and the advertisement stored under
    the returned link has [IsRm] set, [NoEntries] as its entries and, as its
    metadata, the bytes of the empty [metadata.Default.New()], whatever
    metadata the caller passed. *)
Theorem removal_clears_context env p faults peer addrs contextID md mhs w lnk
    w' :
  publishAdvForIndex env p faults peer addrs contextID md true mhs w
    = (Ok lnk, w') ->
  is_Some (chunkLinks (store w) !! (peer, contextID)) /\
  chunkLinks (store w') !! (peer, contextID) = None /\
  metadatas (store w') !! (peer, contextID) = None /\
  fst (ChunkLinkForProviderAndContextID noFaults peer contextID w')
    = (None, Some ErrNotFound) /\
  fst (MetadataForProviderAndContextID noFaults peer contextID w')
    = (Metadata_zero, Some ErrNotFound) /\
  exists adv mdBytes,
    adverts (store w') !! lnk = Some adv /\
    IsRm adv = true /\ Entries adv = Some NoEntries /\
    MarshalBinary env Default_New = Ok mdBytes /\ Metadata_ adv = mdBytes.
Proof.
  rewrite publishAdvForIndex_eq. cbv zeta.
  destruct (faults OpChunkLinkFor); [done|].
  rewrite chooseEntries_remove.
  destruct (chunkLinks (store w) !! (peer, contextID)) as [l|] eqn:Hl;
    [|done].
  cbv zeta. destruct (faults OpDeleteChunkLink); [done|].
  destruct (faults OpDeleteMetadata); [done|].
  intros H. apply advertise_Ok in H as (mdBytes & adv & h & HM & Hc & -> & Hs).
  apply commits_inv in Hc as (sig & _ & -> & _ & _ & _).
  assert (chunkLinks (store w') !! (peer, contextID) = None) as Hk.
  { rewrite Hs. cbn. apply lookup_delete_eq. }
  assert (metadatas (store w') !! (peer, contextID) = None) as Hm.
  { rewrite Hs. cbn. apply lookup_delete_eq. }
  split; [by eexists|]. split; [done|]. split; [done|].
  split; [exec; by rewrite Hk|]. split; [exec; by rewrite Hm|].
  eexists _, mdBytes. rewrite Hs. cbn. rewrite lookup_insert_eq.
  split; [reflexivity|]. by destruct (head (store w)).
Qed.

(** The example of the specification: [ctx1] removed after it was
    published. *)
Lemma removal_clears_context_witness :
  chunkLinks (store (snd (publishAdvForIndex demoEnv demoPublisher noFaults
                            "peerA" [] "ctx1" metaX true [] worldAfterFirst)))
    !! ("peerA", "ctx1") = None.
Proof.
  eapply (removal_clears_context demoEnv demoPublisher noFaults "peerA" []
            "ctx1" metaX [] worldAfterFirst).
  vm_compute. reflexivity.
Defined.

(** ** Chain linkage *)

Lemma Publish_Ok env p faults providerInfo contextID digests meta w lnk w' :
  Publish env p faults providerInfo contextID digests meta w = (Ok lnk, w') ->
  exists adv h,
    adverts (store w') !! lnk = Some adv /\
    head (store w') = Some h /\ Head_ h = lnk /\
    PreviousID adv = Head_ <$> head (store w).
Proof.
  rewrite Publish_eq.
  destruct (publishAdvForIndex _ _ _ _ _ _ _ _ _ _) as [[l'|] w1] eqn:Hp;
    [|done].
  intros [= -> ->].
  apply publishAdvForIndex_Ok in Hp as (adv & h & ? & ? & ? & ? & _).
  by exists adv, h.
Qed.

(** C1: in a run of [Publish] calls on one engine that all succeed, the
    advertisement stored by a call has as [PreviousID] the link of the head
    read during that call when there is a head, and none otherwise.  So the
    first advertisement on a store without head has no [PreviousID], and
    the advertisement of every later call has as [PreviousID] the link
    returned by the call before it, which is the head that call left. *)
Theorem chain_linkage env p reqs w :
  Forall (fun out => is_Ok (fst out)) (publishAll env p reqs w) ->
  forall n lnk wn,
    publishAll env p reqs w !! n = Some (Ok lnk, wn) ->
    exists adv h,
      adverts (store wn) !! lnk = Some adv /\
      head (store wn) = Some h /\ Head_ h = lnk /\
      match n with
      | 0 =>
          PreviousID adv = Head_ <$> head (store w) /\
          (head (store w) = None -> PreviousID adv = None)
      | S m =>
          exists lm wm,
            publishAll env p reqs w !! m = Some (Ok lm, wm) /\
            PreviousID adv = Head_ <$> head (store wm) /\
            PreviousID adv = Some lm
      end.
Proof.
  revert w. induction reqs as [|r reqs IH]; intros w Hall n lnk wn Hn.
  - by destruct n.
  - cbn in Hall, Hn. apply Forall_cons in Hall as [Hfirst Hall].
    destruct n as [|m]; cbn in Hn.
    + injection Hn as Hn.
      apply Publish_Ok in Hn as (adv & h & Ha & Hh & Hl & Hp).
      exists adv, h. split; [done|]. split; [done|]. split; [done|].
      split; [done|]. intros Hnone. by rewrite Hp, Hnone.
    + destruct (IH _ Hall m lnk wn Hn) as (adv & h & Ha & Hh & Hl & Hprev).
      exists adv, h. split; [done|]. split; [done|]. split; [done|].
      destruct m as [|m'].
      * destruct (Publish env p (reqFaults r) (reqProvider r) (reqContextID r)
                    (reqDigests r) (reqMeta r) w) as [[l0|] w0] eqn:H0;
          [|done].
        cbn in Hprev. destruct Hprev as [Hprev _].
        pose proof H0 as (_ & h0 & _ & Hh0 & Hl0 & _)%Publish_Ok.
        exists l0, w0. split; [cbn; by rewrite H0|]. split; [done|].
        by rewrite Hprev, Hh0, <- Hl0.
      * destruct Hprev as (lm & wm & Hm & Hp1 & Hp2).
        by exists lm, wm.
Qed.

(** The requests of the example of the specification: [metaX], then
    [metaY], under [ctx1]. *)
Lemma chain_linkage_witness :
  exists adv,
    adverts (store (snd (Publish demoEnv demoPublisher noFaults providerA
                           "ctx1" ["d1"; "d2"] metaY worldAfterFirst)))
      !! CidLink "ad-b<ad-a" = Some adv /\
    PreviousID adv = Some (CidLink "ad-a").
Proof.
  destruct (chain_linkage demoEnv demoPublisher
              [mkRequest providerA "ctx1" ["d1"; "d2"] metaX noFaults;
               mkRequest providerA "ctx1" ["d1"; "d2"] metaY noFaults]
              startWorld)
    with (n := 1) (lnk := CidLink "ad-b<ad-a")
         (wn := snd (Publish demoEnv demoPublisher noFaults providerA "ctx1"
                       ["d1"; "d2"] metaY worldAfterFirst))
    as (adv & h & Ha & _ & _ & lm & wm & Hm & _ & Hp).
  - repeat constructor.
  - vm_compute. reflexivity.
  - exists adv. split; [exact Ha|].
    rewrite Hp. vm_compute in Hm. by injection Hm as <- _.
Defined.

(** ** The no-op guard without prior metadata *)

(** With a chunk link but no metadata stored for the pair, and both lookups
    going through, [Publish] answers [ErrAlreadyAdvertised] for metadata
    without protocols: the metadata is compared with the zero value that
    comes with the not-found error. *)
Lemma Publish_without_prior_metadata env p faults providerInfo
    (contextID : ContextID) digests meta w l :
  chunkLinks (store w) !! (ID providerInfo, contextID) = Some l ->
  fst (MetadataForProviderAndContextID faults (ID providerInfo) contextID w)
    = (Metadata_zero, Some ErrNotFound) ->
  faults OpChunkLinkFor = None ->
  protocols meta = [] ->
  Publish env p faults providerInfo contextID digests meta w
    = (Err (Errorf_w "publishing IPNI advert" ErrAlreadyAdvertised),
       logged (logged w (CallChunkLinkFor (ID providerInfo) contextID))
         (CallMetadataFor (ID providerInfo) contextID)).
Proof.
  intros Hl Hmd Hf Hp. rewrite Publish_eq, publishAdvForIndex_eq, Hf, Hl.
  cbv zeta. rewrite chooseEntries_reuse. cbv zeta.
  revert Hmd. exec. destruct (faults OpMetadataFor); cbn; [done|].
  destruct (metadatas (store w) !! (ID providerInfo, contextID)) eqn:Hm;
    cbn; [done|]. intros _.
  destruct meta as [ps]. cbn in Hp. subst ps. reflexivity.
Qed.

(** With metadata that has a protocol, the same call goes on: it does not
    stop at the guard and writes the metadata. *)
Lemma chooseEntries_without_prior_metadata env faults peer contextID md mhs
    w l :
  fst (MetadataForProviderAndContextID faults peer contextID w)
    = (Metadata_zero, Some ErrNotFound) ->
  protocols md <> [] ->
  faults OpPutMetadata = None ->
  fst (chooseEntries env faults peer contextID md false mhs (Some l) w)
    = Ok (l, md).
Proof.
  intros Hmd Hp Hf. rewrite chooseEntries_reuse. cbv zeta.
  revert Hmd. exec. destruct (faults OpMetadataFor); cbn; [done|].
  destruct (metadatas (store w) !! (peer, contextID)) eqn:Hm;
    cbn; [done|]. intros _.
  rewrite Equal_neq; [by rewrite Hf|].
  intros ->. by apply Hp.
Qed.

(** C4: a first [Publish] under [ctx1] stores the chunk link and then
    fails while writing the metadata, so that nothing is advertised.  The
    next [Publish] under [ctx1], with metadata without protocols, finds the
    chunk link, is told not-found for the metadata, and still answers
    [ErrAlreadyAdvertised]: no advertisement is produced. *)
Theorem AlreadyAdvertised_after_metadata_NotFound :
  let w1 := snd (Publish demoEnv demoPublisher (failingAt OpPutMetadata)
                   providerA "ctx1" ["d1"; "d2"] metaX startWorld) in
  adverts (store w1) = ∅ /\ head (store w1) = None /\
  chunkLinks (store w1) !! ("peerA", "ctx1") = Some (CidLink "chunk-d1") /\
  fst (MetadataForProviderAndContextID noFaults "peerA" "ctx1" w1)
    = (Metadata_zero, Some ErrNotFound) /\
  fst (Publish demoEnv demoPublisher noFaults providerA "ctx1" ["d1"; "d2"]
         Default_New w1)
    = Err (Errorf_w "publishing IPNI advert" ErrAlreadyAdvertised) /\
  adverts (store (snd (Publish demoEnv demoPublisher noFaults providerA "ctx1"
                         ["d1"; "d2"] Default_New w1))) = ∅.
Proof. vm_compute. repeat split; reflexivity. Qed.


(** ** [New] *)

Lemma applyOptions_app pre post o :
  applyOptions (pre ++ post) o =
  match applyOptions pre o with
  | Ok o1 => applyOptions post o1
  | Err err => Err err
  end.
Proof.
  revert o. induction pre as [|opt pre IH]; intros o; cbn; [done|].
  destruct (opt o); [apply IH|done].
Qed.

(** X1: [New] returns the error of the first option that fails, as it is:
    the options after it, the key and the announce URLs play no part. *)
Theorem New_first_failing_option nenv id pre opt post o1 err :
  applyOptions pre defaultOptions = Ok o1 ->
  opt o1 = Err err ->
  New nenv id (pre ++ opt :: post) = Err err.
Proof.
  intros Hpre Hopt. unfold New. cbv zeta.
  rewrite applyOptions_app, Hpre. cbn. by rewrite Hopt.
Qed.

Lemma New_first_failing_option_witness :
  New demoNewEnv "key" ([withAnnounceURL "https://indexer"] ++
                        failingOption :: [withAnnounceURL "https://other"])
    = Err (ErrFailure "bad option").
Proof.
  eapply New_first_failing_option; reflexivity.
Defined.

(** X2: [New] succeeds exactly when every option succeeds, the peer ID can
    be derived from the key and, if the options left announce URLs, the
    HTTP sender can be created.  The publisher it returns holds the key and
    the topic of the options, and it has a sender, the one created for the
    URLs and the peer ID of the key, exactly when there are announce
    URLs. *)
Theorem New_succeeds_iff nenv id opts :
  (forall pub, New nenv id opts = Ok pub ->
     exists o peer,
       applyOptions opts defaultOptions = Ok o /\
       IDFromPrivateKey nenv id = Ok peer /\
       key pub = id /\ topic pub = o_topic o /\
       pubHTTPAnnounceAddrs pub = o_pubHTTPAnnounceAddrs o /\
       (announceURLs o = [] -> sender pub = None) /\
       (announceURLs o <> [] ->
        exists s, sender pub = Some s /\
                  httpsender_New nenv (announceURLs o) peer = Ok s)) /\
  (forall o peer,
     applyOptions opts defaultOptions = Ok o ->
     IDFromPrivateKey nenv id = Ok peer ->
     announceURLs o = [] \/
       is_Ok (httpsender_New nenv (announceURLs o) peer) ->
     is_Ok (New nenv id opts)).
Proof.
  unfold New. cbv zeta. split.
  - intros pub.
    destruct (applyOptions opts defaultOptions) as [o|]; [|done].
    destruct (IDFromPrivateKey nenv id) as [peer|]; [|done].
    destruct (announceURLs o) as [|u us] eqn:Hu; cbn.
    + intros [= <-]. exists o, peer. rewrite Hu. by repeat split.
    + destruct (httpsender_New nenv (u :: us) peer) as [s|] eqn:Hs; [|done].
      intros [= <-]. exists o, peer. rewrite Hu. cbn.
      split; [done|]. split; [done|]. split; [done|]. split; [done|].
      split; [done|]. split; [done|]. intros _. by exists s.
  - intros o peer -> -> H.
    destruct (announceURLs o) as [|u us]; cbn; [done|].
    destruct H as [|H]; [done|].
    by destruct (httpsender_New nenv (u :: us) peer).
Qed.

Lemma New_succeeds_iff_witness :
  is_Ok (New demoNewEnv "key" [withAnnounceURL "https://indexer"]).
Proof.
  destruct (New_succeeds_iff demoNewEnv "key"
              [withAnnounceURL "https://indexer"]) as [_ H].
  eapply H; [reflexivity|reflexivity|right; exact I].
Defined.

(** X3: a publisher that [New] built from options without announce URLs
    never announces: whatever it commits, [publish] makes no call of
    [Send]. *)
Theorem New_without_URLs_never_sends nenv id opts o pub env faults adv w :
  applyOptions opts defaultOptions = Ok o ->
  announceURLs o = [] ->
  New nenv id opts = Ok pub ->
  sender pub = None /\
  forall l addrs,
    CallSend l addrs ∈ trace (snd (publish env pub faults adv w)) ->
    CallSend l addrs ∈ trace w.
Proof.
  intros Ho Hu HN.
  assert (sender pub = None) as Hs.
  { revert HN. unfold New. cbv zeta. rewrite Ho.
    destruct (IDFromPrivateKey nenv id); [|done]. rewrite Hu. cbn.
    by intros [= <-]. }
  split; [done|]. intros l addrs.
  rewrite publish_eq, publishLocal_eq, Hs.
  repeat (case_match; cbn in *); simplify_eq; cbn;
    rewrite ?elem_of_app, ?list_elem_of_singleton; intuition discriminate.
Qed.

Lemma New_without_URLs_never_sends_witness :
  exists pub,
    New demoNewEnv "key" [] = Ok pub /\ sender pub = None.
Proof.
  eexists. split; [reflexivity|].
  eapply (New_without_URLs_never_sends demoNewEnv "key" [] defaultOptions _
            demoEnv noFaults demoAdvert startWorld); reflexivity.
Defined.

(** ** What a call can change *)

Section Frames.

Context (env : Env) (p : IPNIPublisher) (faults : Faults).

(** The decision writes under its own pair only. *)
Lemma chooseEntries_other peer contextID md isRm mhs chunkLink w k :
  k <> (peer, contextID) ->
  let w' := snd (chooseEntries env faults peer contextID md isRm mhs
                   chunkLink w) in
  chunkLinks (store w') !! k = chunkLinks (store w) !! k /\
  metadatas (store w') !! k = metadatas (store w) !! k.
Proof.
  intros Hk.
  destruct isRm; [rewrite chooseEntries_remove|
    destruct chunkLink; [rewrite chooseEntries_reuse|
                         rewrite chooseEntries_fresh]];
    cbn; repeat (case_match; cbn);
    rewrite ?lookup_insert_ne, ?lookup_delete_ne by done; done.
Qed.

(** What [advertise] leaves in the store: nothing; or the signed and
    validated advertisement built on the head, under its link; or that
    advertisement and, on top, the head signed for its link, in which case
    the call succeeded. *)
Lemma advertise_store peer addrs contextID md isRm chunkLink w :
  let out := advertise env p faults peer addrs contextID md isRm chunkLink w in
  (store (snd out) = store w /\ ~ is_Ok (fst out)) \/
  exists mdBytes sig,
    MarshalBinary env md = Ok mdBytes /\
    let adv0 := newAdvertisement peer addrs contextID chunkLink mdBytes isRm
                  (head (store w)) in
    let adv := with_Signature adv0 sig in
    signAdvertisement env (key p) adv0 = Ok sig /\
    Validate env adv = None /\
    ((store (snd out) = withAdvert (store w) (advertLink env adv) adv /\
      ~ is_Ok (fst out)) \/
     exists hsig,
       signHead env (key p) (topic p) (advertLink env adv) = Ok hsig /\
       store (snd out) =
         withHead (withAdvert (store w) (advertLink env adv) adv)
           (mkSignedHead (advertLink env adv) (topic p) hsig) /\
       fst out = Ok (advertLink env adv)).
Proof.
  cbv zeta. rewrite advertise_eq.
  destruct (MarshalBinary env md) as [mdBytes|]; [|left; cbn; tauto].
  destruct (faults OpHead); [left; cbn; tauto|]. cbv zeta.
  destruct (signAdvertisement _ _ _) as [sig|] eqn:Hsig; [|left; cbn; tauto].
  rewrite publish_eq, publishLocal_eq.
  destruct (Validate env _) eqn:HV; [left; cbn; tauto|]. cbv zeta.
  destruct (faults OpPutAdvert); [left; cbn; tauto|].
  right. exists mdBytes, sig. split; [done|]. split; [done|]. split; [done|].
  unfold NewSignedHead.
  destruct (signHead _ _ _ _) as [hsig|] eqn:Hh; [|left; cbn; tauto].
  destruct (faults OpPutHead); [left; cbn; tauto|].
  right. exists hsig. split; [done|]. by destruct (sender p).
Qed.

End Frames.

(** X4: a call for one pair, whatever its outcome, leaves the chunk link and
    the metadata of every other pair as they were. *)
Theorem publishAdvForIndex_other_pairs env p faults peer addrs contextID md
    isRm mhs w k :
  k <> (peer, contextID) ->
  let w' := snd (publishAdvForIndex env p faults peer addrs contextID md isRm
                   mhs w) in
  chunkLinks (store w') !! k = chunkLinks (store w) !! k /\
  metadatas (store w') !! k = metadatas (store w) !! k.
Proof.
  intros Hk. cbv zeta. rewrite publishAdvForIndex_eq. cbv zeta.
  destruct (faults OpChunkLinkFor); [done|].
  pose proof (chooseEntries_other env faults peer contextID md isRm mhs
                (chunkLinks (store w) !! (peer, contextID))
                (logged w (CallChunkLinkFor peer contextID)) k Hk) as Hc.
  cbv zeta in Hc.
  destruct (chooseEntries _ _ _ _ _ _ _ _ _) as [[[cl md']|] w2];
    cbn in Hc; [|done].
  destruct (advertise_frame env p faults peer addrs contextID md' isRm cl w2)
    as [-> ->].
  exact Hc.
Qed.

(** Removing [ctx1] leaves [ctx2] of the same provider alone. *)
Lemma publishAdvForIndex_other_pairs_witness :
  chunkLinks (store (snd (publishAdvForIndex demoEnv demoPublisher noFaults
                            "peerA" [] "ctx1" metaX true [] worldAfterFirst)))
    !! ("peerA", "ctx2")
  = chunkLinks (store worldAfterFirst) !! ("peerA", "ctx2").
Proof.
  apply (publishAdvForIndex_other_pairs demoEnv demoPublisher noFaults
           "peerA" [] "ctx1" metaX true [] worldAfterFirst ("peerA", "ctx2")).
  discriminate.
Defined.

(** ** Invariants of the advertisement chain *)

Section ChainInvariants.

Context (env : Env) (p : IPNIPublisher).

Lemma chooseEntries_remove_Ok faults peer contextID md mhs chunkLink w cl md'
    w' :
  chooseEntries env faults peer contextID md true mhs chunkLink w
    = (Ok (cl, md'), w') ->
  cl = NoEntries /\ md' = Default_New.
Proof.
  rewrite chooseEntries_remove.
  repeat (case_match; cbn); by intros [= <- <- <-].
Qed.

(** What a call does to the advertisements and to the head: nothing; or it
    adds one advertisement, built on the head it found and fit to be
    published, and then either keeps the head and fails or moves the head
    to that advertisement and returns its link. *)
Lemma publishAdvForIndex_adverts faults peer addrs contextID md isRm mhs w :
  let out := publishAdvForIndex env p faults peer addrs contextID md isRm
               mhs w in
  (adverts (store (snd out)) = adverts (store w) /\
   head (store (snd out)) = head (store w) /\ ~ is_Ok (fst out)) \/
  exists adv,
    published_by env p (advertLink env adv) adv /\
    PreviousID adv = Head_ <$> head (store w) /\
    IsRm adv = isRm /\
    adverts (store (snd out))
      = <[advertLink env adv := adv]> (adverts (store w)) /\
    ((head (store (snd out)) = head (store w) /\ ~ is_Ok (fst out)) \/
     exists hsig,
       signHead env (key p) (topic p) (advertLink env adv) = Ok hsig /\
       head (store (snd out))
         = Some (mkSignedHead (advertLink env adv) (topic p) hsig) /\
       fst out = Ok (advertLink env adv)).
Proof.
  cbv zeta. rewrite publishAdvForIndex_eq. cbv zeta.
  destruct (faults OpChunkLinkFor); [left; cbn; tauto|].
  pose proof (chooseEntries_frame env faults peer contextID md isRm mhs
                (chunkLinks (store w) !! (peer, contextID))
                (logged w (CallChunkLinkFor peer contextID))) as [Hh Ha].
  destruct (chooseEntries _ _ _ _ _ _ _ _ _) as [[[cl md']|] w2] eqn:Hc;
    cbn in Hh, Ha; [|left; cbn; tauto].
  destruct (advertise_store env p faults peer addrs contextID md' isRm cl w2)
    as [[Hs Hn]|(mdBytes & sig & HM & Hsig & HV & Hrest)].
  { left. rewrite Hs. tauto. }
  right. rewrite Hh in Hsig, HV, Hrest.
  set (adv := with_Signature
                (newAdvertisement peer addrs contextID cl mdBytes isRm
                   (head (store w))) sig) in *.
  exists adv. split; [|split; [|split; [|split]]].
  - split; [done|]. split.
    { subst adv. by destruct (head (store w)). }
    split; [done|]. split.
    { subst adv. destruct (head (store w)); cbn; eauto. }
    intros Hrm. assert (isRm = true) as ->.
    { subst adv. by destruct (head (store w)). }
    apply chooseEntries_remove_Ok in Hc as [-> _].
    subst adv. by destruct (head (store w)).
  - subst adv. by destruct (head (store w)).
  - subst adv. by destruct (head (store w)).
  - destruct Hrest as [[-> _]|(hsig & _ & -> & _)]; cbn; by rewrite Ha.
  - destruct Hrest as [[-> Hn]|(hsig & Hh' & -> & Hok)]; cbn.
    + left. by rewrite Hh.
    + right. by exists hsig.
Qed.

Lemma publishAdvForIndex_chain_closed faults peer addrs contextID md isRm mhs
    w :
  head_resolves (store w) -> chain_closed (store w) ->
  chain_closed (store (snd (publishAdvForIndex env p faults peer addrs
                              contextID md isRm mhs w))).
Proof.
  intros Hr Hc.
  destruct (publishAdvForIndex_adverts faults peer addrs contextID md isRm
              mhs w) as [(Ha & _ & _)|(adv & _ & Hp & _ & Ha & _)];
    unfold chain_closed; rewrite Ha; [exact Hc|].
  intros l a pl Hl Hpl.
  assert (is_Some (adverts (store w) !! pl)) as Hold.
  { destruct (decide (advertLink env adv = l)) as [<-|Hne].
    - rewrite lookup_insert_eq in Hl. injection Hl as <-.
      rewrite Hp in Hpl. unfold head_resolves in Hr.
      destruct (head (store w)) as [h|]; [|done].
      by injection Hpl as <-.
    - rewrite lookup_insert_ne in Hl by done. by eapply Hc. }
  destruct (decide (advertLink env adv = pl)) as [<-|Hne].
  - rewrite lookup_insert_eq. eauto.
  - by rewrite lookup_insert_ne.
Qed.

Lemma publishAdvForIndex_adverts_published faults peer addrs contextID md isRm
    mhs w :
  adverts_published env p (store w) ->
  adverts_published env p (store (snd (publishAdvForIndex env p faults peer
                                         addrs contextID md isRm mhs w))).
Proof.
  intros Hw.
  destruct (publishAdvForIndex_adverts faults peer addrs contextID md isRm
              mhs w) as [(Ha & _ & _)|(adv & Hpub & _ & _ & Ha & _)];
    unfold adverts_published; rewrite Ha; [exact Hw|].
  intros l a Hl.
  destruct (decide (advertLink env adv = l)) as [<-|Hne].
  - rewrite lookup_insert_eq in Hl. by injection Hl as <-.
  - rewrite lookup_insert_ne in Hl by done. by apply Hw.
Qed.

Lemma publishAdvForIndex_head_signed faults peer addrs contextID md isRm mhs
    w :
  head_signed env p (store w) ->
  head_signed env p (store (snd (publishAdvForIndex env p faults peer addrs
                                   contextID md isRm mhs w))).
Proof.
  intros Hw.
  destruct (publishAdvForIndex_adverts faults peer addrs contextID md isRm
              mhs w)
    as [(_ & Hh & _)|(adv & _ & _ & _ & _ & [[Hh _]|(hsig & Hs & Hh & _)])];
    unfold head_signed; rewrite Hh; try exact Hw.
  by intros h [= <-].
Qed.

End ChainInvariants.

(** X5: in every world an engine can reach, with whatever failures on the
    way, the chain is closed: the previous link of every stored
    advertisement names a stored advertisement, and so does the head. *)
Theorem reachable_chain_closed env p w :
  reachable env p w ->
  chain_closed (store w) /\ head_resolves (store w).
Proof.
  induction 1 as [|w faults peer addrs contextID md isRm mhs _ [IHc IHr]].
  - split; [|exact I]. intros l a pl Hl. cbn in Hl.
    by rewrite lookup_empty in Hl.
  - split.
    + by apply publishAdvForIndex_chain_closed.
    + by apply publishAdvForIndex_head_resolves.
Qed.

Lemma reachable_chain_closed_witness :
  chain_closed (store worldAfterFirst) /\ head_resolves (store worldAfterFirst).
Proof.
  apply (reachable_chain_closed demoEnv demoPublisher).
  change worldAfterFirst with
    (snd (publishAdvForIndex demoEnv demoPublisher noFaults "peerA"
            ["/ip4/1.2.3.4/tcp/3000"] "ctx1" metaX false ["d1"; "d2"]
            startWorld)).
  apply reachable_call. apply reachable_start.
Defined.

(** X6: in every world an engine can reach, every stored advertisement sits
    under its own link, carries the signature that [Sign] made with the key
    of the engine over its other fields, passed [Validate] and has entries,
    the sentinel if it is a removal; and the head carries the topic of the
    engine and the signature made with its key for the link it names. *)
Theorem reachable_signed env p w :
  reachable env p w ->
  adverts_published env p (store w) /\ head_signed env p (store w).
Proof.
  induction 1 as [|w faults peer addrs contextID md isRm mhs _ [IHa IHh]].
  - split.
    + intros l a Hl. cbn in Hl. by rewrite lookup_empty in Hl.
    + by intros h.
  - split.
    + by apply publishAdvForIndex_adverts_published.
    + by apply publishAdvForIndex_head_signed.
Qed.

Lemma reachable_signed_witness :
  adverts_published demoEnv demoPublisher (store worldAfterFirst) /\
  head_signed demoEnv demoPublisher (store worldAfterFirst).
Proof.
  apply (reachable_signed demoEnv demoPublisher).
  change worldAfterFirst with
    (snd (publishAdvForIndex demoEnv demoPublisher noFaults "peerA"
            ["/ip4/1.2.3.4/tcp/3000"] "ctx1" metaX false ["d1"; "d2"]
            startWorld)).
  apply reachable_call. apply reachable_start.
Defined.


(** In a reachable world every advertisement sits under its own link. *)
Lemma reachable_own_link env p w :
  reachable env p w ->
  forall l a, adverts (store w) !! l = Some a -> advertLink env a = l.
Proof.
  intros Hr.
  assert (adverts_published env p (store w)) as Hpub.
  { induction Hr as [|w faults peer addrs contextID md isRm mhs _ IH].
    - intros l a Hl. cbn in Hl. by rewrite lookup_empty in Hl.
    - by apply publishAdvForIndex_adverts_published. }
  intros l a Hl. by destruct (Hpub l a Hl) as [? _].
Qed.

(** X7: advertisements are append-only.  A call never removes a stored
    advertisement; and when links do not collide, in a reachable world no
    call changes a stored advertisement either. *)
Theorem adverts_append_only env p faults peer addrs contextID md isRm mhs w l
    a :
  adverts (store w) !! l = Some a ->
  let w' := snd (publishAdvForIndex env p faults peer addrs contextID md isRm
                   mhs w) in
  is_Some (adverts (store w') !! l) /\
  (reachable env p w ->
   (forall a1 a2, advertLink env a1 = advertLink env a2 -> a1 = a2) ->
   adverts (store w') !! l = Some a).
Proof.
  intros Hl. cbv zeta.
  destruct (publishAdvForIndex_adverts env p faults peer addrs contextID md
              isRm mhs w) as [(Ha & _ & _)|(adv & _ & _ & _ & Ha & _)];
    rewrite Ha; [by eauto|].
  destruct (decide (advertLink env adv = l)) as [<-|Hne].
  - rewrite lookup_insert_eq. split; [eauto|].
    intros Hr Hinj. f_equal. apply Hinj.
    pose proof (reachable_own_link env p w Hr _ _ Hl) as Hown.
    by rewrite Hown.
  - rewrite lookup_insert_ne by done. by eauto.
Qed.

Lemma adverts_append_only_witness :
  is_Some (adverts (store (snd (publishAdvForIndex demoEnv demoPublisher
                                  noFaults "peerA" [] "ctx1" metaY false []
                                  worldAfterFirst))) !! CidLink "ad-a").
Proof.
  eapply (adverts_append_only demoEnv demoPublisher noFaults "peerA" [] "ctx1"
            metaY false [] worldAfterFirst (CidLink "ad-a")).
  vm_compute. reflexivity.
Defined.

(** ** Runs without store failures *)

Lemma publishAdvForIndex_paired env p faults peer addrs contextID md isRm mhs
    w :
  (forall op, faults op = None) ->
  paired (store w) ->
  paired (store (snd (publishAdvForIndex env p faults peer addrs contextID md
                        isRm mhs w))).
Proof.
  intros Hnf Hw. rewrite publishAdvForIndex_eq, Hnf. cbv zeta.
  assert (forall w2 : World,
            let k := (peer, contextID) in
            (forall k', k' <> k ->
               chunkLinks (store w2) !! k' = chunkLinks (store w) !! k' /\
               metadatas (store w2) !! k' = metadatas (store w) !! k') ->
            (is_Some (chunkLinks (store w2) !! k) <->
             is_Some (metadatas (store w2) !! k)) ->
            paired (store w2)) as Hkey.
  { intros w2 k Ho Hk k'. destruct (decide (k' = k)) as [->|Hne]; [done|].
    destruct (Ho k' Hne) as [-> ->]. apply Hw. }
  assert (paired (store (snd (chooseEntries env faults peer contextID md isRm
            mhs (chunkLinks (store w) !! (peer, contextID))
            (logged w (CallChunkLinkFor peer contextID)))))) as Hc.
  { apply Hkey.
    - intros k' Hne.
      exact (chooseEntries_other env faults peer contextID md isRm mhs
               (chunkLinks (store w) !! (peer, contextID))
               (logged w (CallChunkLinkFor peer contextID)) k' Hne).
    - destruct isRm.
      + rewrite chooseEntries_remove.
        destruct (chunkLinks (store w) !! (peer, contextID)) eqn:Hl; cbn.
        * rewrite !Hnf. cbn. rewrite !lookup_delete_eq.
          split; intros [? ?]; done.
        * rewrite <- (Hw (peer, contextID)), Hl. done.
      + destruct (chunkLinks (store w) !! (peer, contextID)) eqn:Hl.
        * rewrite chooseEntries_reuse, !Hnf. cbn.
          destruct (Equal md _); cbn.
          -- rewrite <- (Hw (peer, contextID)), Hl. done.
          -- rewrite lookup_insert_eq, Hl. split; eauto.
        * rewrite chooseEntries_fresh, !Hnf. cbn.
          rewrite !lookup_insert_eq. split; eauto. }
  destruct (chooseEntries _ _ _ _ _ _ _ _ _) as [[[cl md']|] w2];
    cbn in Hc; [|exact Hc].
  intros k.
  destruct (advertise_frame env p faults peer addrs contextID md' isRm cl w2)
    as [-> ->].
  apply Hc.
Qed.

(** X8: as long as no store operation fails, a pair has a chunk link
    exactly when it has metadata; so the metadata lookup of the add path,
    made for a pair that has a chunk link, finds metadata. *)
Theorem healthy_pairs env p w :
  reachable_healthy env p w ->
  paired (store w) /\
  forall faults peer contextID l,
    chunkLinks (store w) !! (peer, contextID) = Some l ->
    faults OpMetadataFor = None ->
    snd (fst (MetadataForProviderAndContextID faults peer contextID w)) = None.
Proof.
  intros Hr.
  assert (paired (store w)) as Hp.
  { induction Hr as [|w faults peer addrs contextID md isRm mhs Hnf _ IH].
    - intros k. cbn. rewrite !lookup_empty. done.
    - by apply publishAdvForIndex_paired. }
  split; [exact Hp|].
  intros faults peer contextID l Hl Hf. exec. rewrite Hf. cbn.
  destruct (Hp (peer, contextID)) as [H _].
  destruct H as [m Hm]; [by eauto|]. by rewrite Hm.
Qed.

Lemma healthy_pairs_witness : paired (store worldAfterFirst).
Proof.
  apply (healthy_pairs demoEnv demoPublisher).
  change worldAfterFirst with
    (snd (publishAdvForIndex demoEnv demoPublisher noFaults "peerA"
            ["/ip4/1.2.3.4/tcp/3000"] "ctx1" metaX false ["d1"; "d2"]
            startWorld)).
  apply healthy_call; [reflexivity|apply healthy_start].
Defined.

(** X9: [Publish] never unpublishes: a pair that has a chunk link, or
    metadata, still has one after any [Publish], and an advertisement that
    [Publish] stores is never a removal. *)
Theorem Publish_never_removes env p faults providerInfo contextID digests
    meta w :
  let out := Publish env p faults providerInfo contextID digests meta w in
  (forall k, is_Some (chunkLinks (store w) !! k) ->
             is_Some (chunkLinks (store (snd out)) !! k)) /\
  (forall k, is_Some (metadatas (store w) !! k) ->
             is_Some (metadatas (store (snd out)) !! k)) /\
  (forall lnk adv, fst out = Ok lnk ->
     adverts (store (snd out)) !! lnk = Some adv -> IsRm adv = false).
Proof.
  cbv zeta. rewrite Publish_eq.
  assert (forall k,
    (is_Some (chunkLinks (store w) !! k) ->
     is_Some (chunkLinks (store (snd (publishAdvForIndex env p faults
        (ID providerInfo) (Addrs providerInfo) contextID meta false digests
        w))) !! k)) /\
    (is_Some (metadatas (store w) !! k) ->
     is_Some (metadatas (store (snd (publishAdvForIndex env p faults
        (ID providerInfo) (Addrs providerInfo) contextID meta false digests
        w))) !! k))) as Hkeep.
  { intros k. rewrite publishAdvForIndex_eq. cbv zeta.
    destruct (faults OpChunkLinkFor); [done|].
    assert (let w2 := snd (chooseEntries env faults (ID providerInfo)
                             contextID meta false digests
                             (chunkLinks (store w) !!
                                (ID providerInfo, contextID))
                             (logged w (CallChunkLinkFor (ID providerInfo)
                                          contextID))) in
            (is_Some (chunkLinks (store w) !! k) ->
             is_Some (chunkLinks (store w2) !! k)) /\
            (is_Some (metadatas (store w) !! k) ->
             is_Some (metadatas (store w2) !! k))) as Hc.
    { destruct (chunkLinks (store w) !! (ID providerInfo, contextID));
        [rewrite chooseEntries_reuse|rewrite chooseEntries_fresh];
        cbn; repeat (case_match; cbn); split; try done;
        rewrite ?lookup_insert_is_Some'; tauto. }
    cbv zeta in Hc.
    destruct (chooseEntries _ _ _ _ _ _ _ _ _) as [[[cl md']|] w2];
      cbn in Hc; [|exact Hc].
    destruct (advertise_frame env p faults (ID providerInfo)
                (Addrs providerInfo) contextID md' false cl w2) as [-> ->].
    exact Hc. }
  destruct (publishAdvForIndex_adverts env p faults (ID providerInfo)
              (Addrs providerInfo) contextID meta false digests w)
    as [(_ & _ & Hn)|(adv & _ & _ & Hrm & Ha & Hrest)].
  - destruct (publishAdvForIndex _ _ _ _ _ _ _ _ _ _) as [[lnk|] w1];
      cbn in *; [by destruct Hn|].
    split; [apply Hkeep|]. split; [apply Hkeep|]. done.
  - destruct (publishAdvForIndex _ _ _ _ _ _ _ _ _ _) as [[lnk|] w1];
      cbn in *.
    + split; [apply Hkeep|]. split; [apply Hkeep|].
      intros lnk' adv' [= <-].
      destruct Hrest as [[_ Hn]|(hsig & _ & _ & [= ->])]; [by destruct Hn|].
      rewrite Ha, lookup_insert_eq. by intros [= <-].
    + split; [apply Hkeep|]. split; [apply Hkeep|]. done.
Qed.

(** ** Calls that fail half-way *)

(** Once the add path is past its guard and its writes went through, the
    pair has a chunk link and the given metadata, however the call ends. *)
Lemma publishAdvForIndex_decided env p faults peer addrs contextID md mhs w :
  Forall (fun op => faults op = None) decisionOps ->
  chunkLinks (store w) !! (peer, contextID) = None \/
    Equal md (default Metadata_zero
                (metadatas (store w) !! (peer, contextID))) = false ->
  let w' := snd (publishAdvForIndex env p faults peer addrs contextID md false
                   mhs w) in
  is_Some (chunkLinks (store w') !! (peer, contextID)) /\
  metadatas (store w') !! (peer, contextID) = Some md.
Proof.
  intros Hf Hg. cbv zeta.
  apply Forall_cons in Hf as [Hf1 Hf]. apply Forall_cons in Hf as [Hf2 Hf].
  apply Forall_cons in Hf as [Hf3 Hf]. apply Forall_cons in Hf as [Hf4 Hf].
  apply Forall_cons in Hf as [Hf5 _].
  rewrite publishAdvForIndex_eq, Hf1. cbv zeta.
  assert (exists cl w2,
            chooseEntries env faults peer contextID md false mhs
              (chunkLinks (store w) !! (peer, contextID))
              (logged w (CallChunkLinkFor peer contextID))
              = (Ok (cl, md), w2) /\
            is_Some (chunkLinks (store w2) !! (peer, contextID)) /\
            metadatas (store w2) !! (peer, contextID) = Some md)
    as (cl & w2 & -> & Hk & Hm).
  { destruct (chunkLinks (store w) !! (peer, contextID)) as [l|] eqn:Hl.
    - destruct Hg as [|HE]; [done|].
      rewrite chooseEntries_reuse, Hf4. cbn. rewrite HE, Hf5.
      eexists _, _. split; [reflexivity|]. cbn.
      rewrite Hl, lookup_insert_eq. eauto.
    - rewrite chooseEntries_fresh, Hf2, Hf3, Hf5. cbv zeta.
      eexists _, _. split; [reflexivity|]. cbn.
      rewrite !lookup_insert_eq. eauto. }
  destruct (advertise_frame env p faults peer addrs contextID md false cl w2)
    as [-> ->].
  done.
Qed.

(** X10: a [Publish] that got past its guard and wrote the metadata, but
    then failed (reading the head, marshalling, signing, validating or
    committing), has published nothing; still the same [Publish] again is
    answered [ErrAlreadyAdvertised], writes nothing, and leaves the head
    where it was before the first call. *)
Theorem retry_after_late_failure env p faults1 faults2 providerInfo
    (contextID : ContextID) digests meta w :
  Forall (fun op => faults1 op = None) decisionOps ->
  chunkLinks (store w) !! (ID providerInfo, contextID) = None \/
    Equal meta (default Metadata_zero
                  (metadatas (store w) !! (ID providerInfo, contextID)))
      = false ->
  faults2 OpChunkLinkFor = None ->
  faults2 OpMetadataFor = None ->
  let out1 := Publish env p faults1 providerInfo contextID digests meta w in
  let out2 := Publish env p faults2 providerInfo contextID digests meta
                (snd out1) in
  fst out2 = Err (Errorf_w "publishing IPNI advert" ErrAlreadyAdvertised) /\
  store (snd out2) = store (snd out1) /\
  (~ is_Ok (fst out1) -> head (store (snd out2)) = head (store w)).
Proof.
  intros Hf Hg Hf1 Hf2. cbv zeta.
  pose proof (publishAdvForIndex_decided env p faults1 (ID providerInfo)
                (Addrs providerInfo) contextID meta digests w Hf Hg)
    as [[cl Hk] Hm].
  cbv zeta in Hk, Hm.
  rewrite (Publish_eq env p faults1).
  destruct (publishAdvForIndex env p faults1 _ _ _ _ _ _ _) as [r1 w1]
    eqn:H1.
  cbn in Hk, Hm.
  assert (store (snd (Publish env p faults2 providerInfo contextID digests
                        meta w1)) = store w1 /\
          fst (Publish env p faults2 providerInfo contextID digests meta w1)
            = Err (Errorf_w "publishing IPNI advert" ErrAlreadyAdvertised))
    as [Hs He].
  { rewrite Publish_eq, publishAdvForIndex_eq, Hf1, Hk. cbv zeta.
    rewrite chooseEntries_reuse, Hf2. cbn. rewrite Hm. cbn.
    by rewrite Equal_refl. }
  destruct r1 as [lnk|err]; cbn.
  - split; [done|]. split; [done|]. by intros [].
  - split; [done|]. split; [done|]. intros _. rewrite Hs.
    by eapply publishAdvForIndex_Err_head.
Qed.

(** A first [Publish] whose store fails while putting the advertisement. *)
Lemma retry_after_late_failure_witness :
  let out1 := Publish demoEnv demoPublisher (failingAt OpPutAdvert) providerA
                "ctx1" ["d1"; "d2"] metaX startWorld in
  fst (Publish demoEnv demoPublisher noFaults providerA "ctx1" ["d1"; "d2"]
         metaX (snd out1))
    = Err (Errorf_w "publishing IPNI advert" ErrAlreadyAdvertised) /\
  head (store (snd (Publish demoEnv demoPublisher noFaults providerA "ctx1"
                      ["d1"; "d2"] metaX (snd out1)))) = None.
Proof.
  destruct (retry_after_late_failure demoEnv demoPublisher
              (failingAt OpPutAdvert) noFaults providerA "ctx1" ["d1"; "d2"]
              metaX startWorld) as (H1 & _ & H3).
  - repeat constructor.
  - left. reflexivity.
  - reflexivity.
  - reflexivity.
  - split; [exact H1|]. apply H3. vm_compute. tauto.
Defined.

(** X11: a removal whose store deletes the chunk link and then fails to
    delete the metadata stores no advertisement and keeps the head, the
    chunk link is gone and the metadata stays; and the removal cannot be
    made up for: tried again, it fails with [ErrContextIDNotFound] and
    changes nothing. *)
Theorem removal_interrupted env p faults1 faults2 peer addrs contextID md mhs
    w l msg :
  chunkLinks (store w) !! (peer, contextID) = Some l ->
  faults1 OpChunkLinkFor = None ->
  faults1 OpDeleteChunkLink = None ->
  faults1 OpDeleteMetadata = Some msg ->
  faults2 OpChunkLinkFor = None ->
  let out1 := publishAdvForIndex env p faults1 peer addrs contextID md true
                mhs w in
  let out2 := publishAdvForIndex env p faults2 peer addrs contextID md true
                mhs (snd out1) in
  ~ is_Ok (fst out1) /\
  chunkLinks (store (snd out1)) !! (peer, contextID) = None /\
  metadatas (store (snd out1)) = metadatas (store w) /\
  adverts (store (snd out1)) = adverts (store w) /\
  head (store (snd out1)) = head (store w) /\
  fst out2 = Err ErrContextIDNotFound /\
  store (snd out2) = store (snd out1).
Proof.
  intros Hl Hf1 Hf2 Hf3 Hg1. cbv zeta.
  rewrite (publishAdvForIndex_eq env p faults1), Hf1, Hl. cbv zeta.
  rewrite chooseEntries_remove, Hf2, Hf3. cbn.
  rewrite publishAdvForIndex_eq, Hg1. cbn. rewrite lookup_delete_eq.
  rewrite chooseEntries_remove. cbn.
  repeat split; try done. tauto.
Qed.

Lemma removal_interrupted_witness :
  fst (publishAdvForIndex demoEnv demoPublisher noFaults "peerA" [] "ctx1"
         metaX true []
         (snd (publishAdvForIndex demoEnv demoPublisher
                 (failingAt OpDeleteMetadata) "peerA" [] "ctx1" metaX true []
                 worldAfterFirst)))
    = Err ErrContextIDNotFound.
Proof.
  eapply (removal_interrupted demoEnv demoPublisher
            (failingAt OpDeleteMetadata) noFaults "peerA" [] "ctx1" metaX []
            worldAfterFirst (CidLink "chunk-d1") "i/o error");
    vm_compute; reflexivity.
Defined.

(** X12: a first publish under a pair whose store writes the chunk link and
    then fails to write the metadata stores no advertisement and keeps the
    head and the metadata, but the chunk link stays.  A later call on the
    add path for the pair then finds that link: it does not call
    [PutEntries] again, and an advertisement it stores has that link as
    its entries, whatever digests it was given. *)
Theorem add_interrupted env p faults1 faults2 peer addrs contextID md mhs
    md' mhs' w msg :
  chunkLinks (store w) !! (peer, contextID) = None ->
  faults1 OpChunkLinkFor = None ->
  faults1 OpPutEntries = None ->
  faults1 OpPutChunkLink = None ->
  faults1 OpPutMetadata = Some msg ->
  let chunkLink := default NoEntries (entriesLink env mhs) in
  let out1 := publishAdvForIndex env p faults1 peer addrs contextID md false
                mhs w in
  let out2 := publishAdvForIndex env p faults2 peer addrs contextID md' false
                mhs' (snd out1) in
  ~ is_Ok (fst out1) /\
  chunkLinks (store (snd out1)) !! (peer, contextID) = Some chunkLink /\
  metadatas (store (snd out1)) = metadatas (store w) /\
  adverts (store (snd out1)) = adverts (store w) /\
  head (store (snd out1)) = head (store w) /\
  (forall m, CallPutEntries m ∈ trace (snd out2) ->
             CallPutEntries m ∈ trace (snd out1)) /\
  (forall lnk, fst out2 = Ok lnk ->
     exists adv,
       adverts (store (snd out2)) !! lnk = Some adv /\
       Entries adv = Some chunkLink).
Proof.
  intros Hl Hf1 Hf2 Hf3 Hf4. cbv zeta.
  rewrite (publishAdvForIndex_eq env p faults1), Hf1, Hl. cbv zeta.
  rewrite chooseEntries_fresh, Hf2, Hf3, Hf4. cbn.
  set (w1 := mkWorld _ _).
  assert (chunkLinks (store w1) !! (peer, contextID)
          = Some (default NoEntries (entriesLink env mhs))) as Hk.
  { subst w1. cbn. by rewrite lookup_insert_eq. }
  split; [tauto|]. split; [exact Hk|].
  split; [subst w1; by destruct (entriesLink env mhs)|].
  split; [subst w1; by destruct (entriesLink env mhs)|].
  split; [subst w1; by destruct (entriesLink env mhs)|].
  split.
  - intros m. rewrite publishAdvForIndex_eq, Hk. cbv zeta.
    destruct (faults2 OpChunkLinkFor); cbn; [no_new_call|].
    pose proof (chooseEntries_reuse_trace env faults2 peer contextID md' mhs'
                  (default NoEntries (entriesLink env mhs))
                  (logged w1 (CallChunkLinkFor peer contextID)) m) as Hc.
    destruct (chooseEntries _ _ _ _ _ _ _ _ _) as [[[cl md2]|] w2];
      cbn in Hc |- *.
    + intros H. assert (CallPutEntries m ∈ trace w2) as H2.
      { by apply (advertise_trace env p faults2 peer addrs contextID md2
                    false cl w2 m). }
      specialize (Hc H2). revert Hc. no_new_call.
    + intros H. specialize (Hc H). revert Hc. no_new_call.
  - intros lnk Hok.
    destruct (publishAdvForIndex env p faults2 _ _ _ _ _ _ _) as [r2 w2]
      eqn:H2. cbn in Hok. subst r2.
    apply publishAdvForIndex_add_Ok in H2
      as (adv & cl & mdBytes & Ha & He & _ & _ & _ & _ & _ & Hcase).
    rewrite Hk in Hcase. destruct Hcase as (-> & _ & _).
    by exists adv.
Qed.

Lemma add_interrupted_witness :
  chunkLinks (store (snd (publishAdvForIndex demoEnv demoPublisher
                            (failingAt OpPutMetadata) "peerA" [] "ctx1" metaX
                            false ["d1"; "d2"] startWorld)))
    !! ("peerA", "ctx1") = Some (CidLink "chunk-d1").
Proof.
  eapply (add_interrupted demoEnv demoPublisher (failingAt OpPutMetadata)
            noFaults "peerA" [] "ctx1" metaX ["d1"; "d2"] metaY []
            startWorld "i/o error"); reflexivity.
Defined.

(** ** Traces *)

Section Traces.

Context (env : Env) (p : IPNIPublisher) (faults : Faults).

Lemma advertise_trace_grows peer addrs contextID md isRm chunkLink w :
  exists calls,
    trace (snd (advertise env p faults peer addrs contextID md isRm chunkLink
                  w)) = trace w ++ calls.
Proof.
  rewrite advertise_eq.
  destruct (MarshalBinary env md); [|exists []; by rewrite app_nil_r].
  destruct (faults OpHead); cbn; [by eexists|].
  destruct (signAdvertisement _ _ _); cbn;
    [|eexists; by rewrite <- app_assoc].
  rewrite publish_eq, publishLocal_eq.
  repeat (case_match; cbn in *); simplify_eq; cbn;
    eexists; rewrite <- ?app_assoc; reflexivity.
Qed.

End Traces.

(** X13: after a removal that succeeded, the pair is new again: a later
    call on the add path, even with the metadata stored before the removal,
    is not stopped by the guard but starts by materialising its digests,
    right after the lookup of the chunk link. *)
Theorem remove_then_add_materialises env p faults1 faults2 peer addrs
    contextID md mhs md' mhs' w lnk w1 :
  publishAdvForIndex env p faults1 peer addrs contextID md true mhs w
    = (Ok lnk, w1) ->
  faults2 OpChunkLinkFor = None ->
  exists calls,
    trace (snd (publishAdvForIndex env p faults2 peer addrs contextID md'
                  false mhs' w1))
      = trace w1 ++ [CallChunkLinkFor peer contextID; CallPutEntries mhs']
          ++ calls.
Proof.
  intros H1 Hf.
  assert (chunkLinks (store w1) !! (peer, contextID) = None) as Hk.
  { revert H1. rewrite publishAdvForIndex_eq. cbv zeta.
    destruct (faults1 OpChunkLinkFor); [done|].
    rewrite chooseEntries_remove.
    destruct (chunkLinks (store w) !! (peer, contextID)); [|done].
    cbv zeta. destruct (faults1 OpDeleteChunkLink); [done|].
    destruct (faults1 OpDeleteMetadata); [done|].
    intros H. apply advertise_Ok in H as (? & ? & ? & _ & _ & _ & ->).
    cbn. apply lookup_delete_eq. }
  rewrite publishAdvForIndex_eq, Hf, Hk. cbv zeta.
  rewrite chooseEntries_fresh. cbv zeta.
  destruct (faults2 OpPutEntries); cbn.
  { exists []. by rewrite <- app_assoc. }
  destruct (faults2 OpPutChunkLink); cbn.
  { eexists. rewrite <- !app_assoc. reflexivity. }
  destruct (faults2 OpPutMetadata); cbn.
  { eexists. rewrite <- !app_assoc. reflexivity. }
  match goal with
  | |- context [advertise ?e ?q ?f ?a ?b ?c ?d ?i ?l ?w0] =>
      destruct (advertise_trace_grows e q f a b c d i l w0) as [calls ->]
  end.
  cbn. eexists. rewrite <- !app_assoc. reflexivity.
Qed.

Lemma remove_then_add_materialises_witness :
  exists calls,
    trace (snd (publishAdvForIndex demoEnv demoPublisher noFaults "peerA" []
                  "ctx1" metaX false ["d3"]
                  (snd (publishAdvForIndex demoEnv demoPublisher noFaults
                          "peerA" [] "ctx1" metaX true [] worldAfterFirst))))
    = trace (snd (publishAdvForIndex demoEnv demoPublisher noFaults "peerA" []
                    "ctx1" metaX true [] worldAfterFirst))
        ++ [CallChunkLinkFor "peerA" "ctx1"; CallPutEntries ["d3"]] ++ calls.
Proof.
  eapply (remove_then_add_materialises demoEnv demoPublisher noFaults
            noFaults "peerA" [] "ctx1" metaX [] metaX ["d3"] worldAfterFirst).
  - vm_compute. reflexivity.
  - reflexivity.
Defined.

(** ** Errors *)

(** X14: when the store fails to put the advertisement, or to put the head,
    the error that [publish] returns, and the one [Publish] makes of it,
    keep the error of the store in their chain: [errors.Is] finds it. *)
Theorem commit_failure_is_wrapped env p faults adv w msg :
  Validate env adv = None ->
  faults OpPutAdvert = Some msg \/
    (faults OpPutAdvert = None /\
     is_Ok (NewSignedHead env (advertLink env adv) (topic p) (key p)) /\
     faults OpPutHead = Some msg) ->
  exists err,
    fst (publish env p faults adv w) = Err err /\
    errors_Is err (ErrFailure msg) = true /\
    errors_Is (Errorf_w "publishing IPNI advert" err) (ErrFailure msg) = true.
Proof.
  intros HV H. rewrite publish_eq, publishLocal_eq, HV. cbv zeta.
  destruct H as [->|(-> & Hh & Hf)].
  - eexists. split; [reflexivity|]. cbn.
    rewrite !bool_decide_eq_false_2 by discriminate.
    by rewrite bool_decide_eq_true_2.
  - destruct (NewSignedHead _ _ _ _); [|done]. rewrite Hf.
    eexists. split; [reflexivity|]. cbn.
    rewrite !bool_decide_eq_false_2 by discriminate.
    by rewrite bool_decide_eq_true_2.
Qed.

Lemma commit_failure_is_wrapped_witness :
  exists err,
    fst (publish demoEnv demoPublisher (failingAt OpPutHead) demoAdvert
           startWorld) = Err err /\
    errors_Is err (ErrFailure "i/o error") = true.
Proof.
  destruct (commit_failure_is_wrapped demoEnv demoPublisher
              (failingAt OpPutHead) demoAdvert startWorld "i/o error")
    as (err & H1 & H2 & _).
  - reflexivity.
  - right. split; [reflexivity|]. split; [exact I|reflexivity].
  - by exists err.
Defined.

(** X15: when one of the two lookups at the start of a call fails (the chunk
    link, or on the add path over an existing chunk link the metadata), the
    call fails before anything is written: the store is as before.  The
    error it returns names the store's error in its text only: [errors.Is]
    does not find it. *)
Theorem lookup_failure_writes_nothing env p faults peer addrs contextID md
    isRm mhs w msg :
  faults OpChunkLinkFor = Some msg \/
    (faults OpChunkLinkFor = None /\ isRm = false /\
     is_Some (chunkLinks (store w) !! (peer, contextID)) /\
     faults OpMetadataFor = Some msg) ->
  let out := publishAdvForIndex env p faults peer addrs contextID md isRm
               mhs w in
  store (snd out) = store w /\
  exists err,
    fst out = Err err /\ errors_Is err (ErrFailure msg) = false.
Proof.
  intros H. cbv zeta. rewrite publishAdvForIndex_eq. cbv zeta.
  destruct H as [->|(-> & -> & [l ->] & Hf)].
  - split; [done|]. eexists. split; [reflexivity|]. cbn.
    by rewrite bool_decide_eq_false_2 by discriminate.
  - rewrite chooseEntries_reuse, Hf. cbn.
    split; [done|]. eexists. split; [reflexivity|]. cbn.
    by rewrite bool_decide_eq_false_2 by discriminate.
Qed.

Lemma lookup_failure_writes_nothing_witness :
  store (snd (publishAdvForIndex demoEnv demoPublisher
                (failingAt OpMetadataFor) "peerA" [] "ctx1" metaY false []
                worldAfterFirst)) = store worldAfterFirst.
Proof.
  eapply (lookup_failure_writes_nothing demoEnv demoPublisher
            (failingAt OpMetadataFor) "peerA" [] "ctx1" metaY false []
            worldAfterFirst "i/o error").
  right. split; [reflexivity|]. split; [reflexivity|].
  split; [vm_compute; eauto|reflexivity].
Defined.

(** ** Arguments a removal does not read *)

(** X16: a removal reads neither the metadata nor the digests it is given:
    with any two of each it returns the same result and leaves the same
    store and the same trace. *)
Theorem removal_ignores_metadata_and_digests env p faults peer addrs contextID
    md1 md2 mhs1 mhs2 w :
  publishAdvForIndex env p faults peer addrs contextID md1 true mhs1 w =
  publishAdvForIndex env p faults peer addrs contextID md2 true mhs2 w.
Proof.
  rewrite !publishAdvForIndex_eq. cbv zeta.
  destruct (faults OpChunkLinkFor); [done|].
  rewrite !chooseEntries_remove.
  destruct (chunkLinks (store w) !! (peer, contextID)); [|done].
  cbv zeta. destruct (faults OpDeleteChunkLink); [done|].
  by destruct (faults OpDeleteMetadata).
Qed.

(** ** The first publish under a pair *)

(** X17: a first publish under a pair whose digests make a chunk list: when
    it returns a link, the advertisement stored under it has the link of
    that chunk list as its entries, the same link is what the store keeps
    for the pair, the digests are kept under it, and the metadata kept for
    the pair is the one given. *)
Theorem first_publish_entries env p faults peer addrs contextID md mhs w cl
    lnk w' :
  chunkLinks (store w) !! (peer, contextID) = None ->
  entriesLink env mhs = Some cl ->
  publishAdvForIndex env p faults peer addrs contextID md false mhs w
    = (Ok lnk, w') ->
  exists adv,
    adverts (store w') !! lnk = Some adv /\
    Entries adv = Some cl /\ IsRm adv = false /\
    chunkLinks (store w') !! (peer, contextID) = Some cl /\
    entries (store w') !! cl = Some mhs /\
    metadatas (store w') !! (peer, contextID) = Some md.
Proof.
  intros Hl He. rewrite publishAdvForIndex_eq, Hl. cbv zeta.
  destruct (faults OpChunkLinkFor); [done|].
  rewrite chooseEntries_fresh, He. cbv zeta.
  destruct (faults OpPutEntries); [done|].
  destruct (faults OpPutChunkLink); [done|].
  destruct (faults OpPutMetadata); [done|].
  intros H. apply advertise_Ok in H as (mdBytes & adv & h & _ & Hc & -> & ->).
  apply commits_inv in Hc as (sig & _ & -> & _ & _ & _).
  eexists. cbn. rewrite !lookup_insert_eq.
  split; [reflexivity|]. by destruct (head (store w)).
Qed.

Lemma first_publish_entries_witness :
  exists adv,
    adverts (store worldAfterFirst) !! CidLink "ad-a" = Some adv /\
    Entries adv = Some (CidLink "chunk-d1") /\
    entries (store worldAfterFirst) !! CidLink "chunk-d1"
      = Some ["d1"; "d2"].
Proof.
  destruct (first_publish_entries demoEnv demoPublisher noFaults "peerA"
              ["/ip4/1.2.3.4/tcp/3000"] "ctx1" metaX ["d1"; "d2"] startWorld
              (CidLink "chunk-d1") (CidLink "ad-a") worldAfterFirst)
    as (adv & Ha & He & _ & _ & Hm & _).
  - reflexivity.
  - reflexivity.
  - vm_compute. reflexivity.
  - by exists adv.
Defined.



(** ** Runs in which calls may fail *)

Lemma Publish_head env p faults providerInfo contextID digests meta w :
  let out := Publish env p faults providerInfo contextID digests meta w in
  Head_ <$> head (store (snd out)) =
  match fst out with
  | Ok l => Some l
  | Err _ => Head_ <$> head (store w)
  end.
Proof.
  cbv zeta.
  destruct (Publish env p faults providerInfo contextID digests meta w)
    as [[l|err] w'] eqn:H; cbn.
  - apply Publish_Ok in H as (_ & h & _ & -> & <- & _). done.
  - rewrite Publish_eq in H.
    destruct (publishAdvForIndex _ _ _ _ _ _ _ _ _ _) as [[|e] w1] eqn:Hp;
      [done|].
    injection H as _ <-. f_equal. by eapply publishAdvForIndex_Err_head.
Qed.

(** X19: after any run of [Publish] calls, failed ones included, the head
    names the advertisement of the last call that succeeded; if none did,
    the head is the one the run started with. *)
Theorem publishAll_head env p reqs w :
  Head_ <$> head (store (finalWorld (publishAll env p reqs w) w)) =
  headAfter (publishAll env p reqs w) (Head_ <$> head (store w)).
Proof.
  unfold finalWorld, headAfter. revert w.
  induction reqs as [|r reqs IH]; intros w; [done|].
  cbn [publishAll fold_left]. rewrite IH. f_equal. apply Publish_head.
Qed.

(** X20: in any run of [Publish] calls, failed ones included, the
    advertisement that a successful call stores has as [PreviousID] the
    link returned by the last successful call before it, or the link of the
    head the run started with if there is no such call. *)
Theorem chain_linkage_across_failures env p reqs w n lnk wn :
  publishAll env p reqs w !! n = Some (Ok lnk, wn) ->
  exists adv,
    adverts (store wn) !! lnk = Some adv /\
    PreviousID adv =
      headAfter (take n (publishAll env p reqs w)) (Head_ <$> head (store w)).
Proof.
  revert w n. induction reqs as [|r reqs IH]; intros w n Hn.
  - by destruct n.
  - cbn in Hn. destruct n as [|m]; cbn in Hn.
    + injection Hn as Hn.
      apply Publish_Ok in Hn as (adv & h & Ha & _ & _ & Hp).
      by exists adv.
    + destruct (IH _ _ Hn) as (adv & Ha & Hp).
      exists adv. split; [done|]. rewrite Hp. cbn [publishAll take].
      unfold headAfter. cbn [fold_left]. f_equal. apply Publish_head.
Qed.

(** A run in which the second of three calls fails in the store. *)
Lemma chain_linkage_across_failures_witness :
  exists adv wn,
    adverts (store wn) !! CidLink "ad-b<ad-a" = Some adv /\
    PreviousID adv = Some (CidLink "ad-a").
Proof.
  destruct (chain_linkage_across_failures demoEnv demoPublisher
              [mkRequest providerA "ctx1" ["d1"; "d2"] metaX noFaults;
               mkRequest providerA "ctx2" ["d3"] metaX (failingAt OpPutAdvert);
               mkRequest providerA "ctx1" ["d1"; "d2"] metaY noFaults]
              startWorld 2 (CidLink "ad-b<ad-a")
              (snd (Publish demoEnv demoPublisher noFaults providerA "ctx1"
                      ["d1"; "d2"] metaY
                      (snd (Publish demoEnv demoPublisher
                              (failingAt OpPutAdvert) providerA "ctx2" ["d3"]
                              metaX worldAfterFirst)))))
    as (adv & Ha & Hp).
  - vm_compute. reflexivity.
  - eexists adv, _. split; [exact Ha|]. rewrite Hp. vm_compute. reflexivity.
Defined.

(** Publishing again under [ctx1] keeps its chunk link. *)
Lemma Publish_never_removes_witness :
  is_Some (chunkLinks (store (snd (Publish demoEnv demoPublisher noFaults
                                     providerA "ctx1" [] metaY
                                     worldAfterFirst)))
             !! ("peerA", "ctx1")).
Proof.
  apply (Publish_never_removes demoEnv demoPublisher noFaults providerA "ctx1"
           [] metaY worldAfterFirst).
  vm_compute. eauto.
Defined.
